(** * A shallow embedding of the Monkey interpreter (lexer, parser, evaluator)

    Each Go package of the repository is a Rocq module of the same name.
    Go strings are byte strings and are modelled by [string]; Go's [int] and
    [int64] are modelled by [Z], with the 64-bit wrap-around written out
    where the evaluator computes on [int64]. *)

From Stdlib Require Import ZArith Ascii String List Lia.
From stdpp Require Import base option list strings gmap pretty.

Local Open Scope string_scope.
Local Open Scope Z_scope.

Set Warnings "-register-all".

(** The byte of the double-quote character, written by its code. *)
Definition dquote : ascii := ascii_of_nat 34.

(* ===================================================================== *)
(** ** package token *)
(* ===================================================================== *)
Module token.

Definition TokenType := string.

Record Token := mkToken { Type_ : TokenType; Literal : string }.

Definition ILLEGAL : TokenType := "ILLEGAL".
Definition EOF : TokenType := "EOF".
Definition IDENTIFIER : TokenType := "IDENTIFIER".
Definition INT : TokenType := "INT".
Definition ASSIGN : TokenType := "=".
Definition PLUS : TokenType := "+".
Definition MINUS : TokenType := "-".
Definition EQ : TokenType := "==".
Definition NEQ : TokenType := "!=".
Definition STAR : TokenType := "*".
Definition GR : TokenType := ">".
Definition LE : TokenType := "<".
Definition SLASH : TokenType := "/".
Definition EXCLA : TokenType := "!".
Definition COMMA : TokenType := ",".
Definition SEMICOLON : TokenType := ";".
Definition LP : TokenType := "(".
Definition RP : TokenType := ")".
Definition LB : TokenType := "{".
Definition RB : TokenType := "}".
Definition LET : TokenType := "LET".
Definition FUNC : TokenType := "FUNCTION".
Definition TRUE : TokenType := "TRUE".
Definition FALSE : TokenType := "FALSE".
Definition RETURN : TokenType := "RETURN".
Definition IF : TokenType := "IF".
Definition ELSE : TokenType := "ELSE".
Definition STRING : TokenType := "STRING".
Definition LSB : TokenType := "[".
Definition RSB : TokenType := "]".

(** Modelled from the spec: the constant [token.COLON] is named by the
    parser ([parseHashExpression]) and by the lexer's test, and listed by
    the spec among the token kinds, but the constant block of package
    token does not declare it.  Every punctuation kind of that block is
    its own character, so [COLON] is taken to be the colon. *)
Definition COLON : TokenType := ":".

Definition keywords : gmap string TokenType :=
  list_to_map
    [ ("let", LET); ("fn", FUNC); ("true", TRUE); ("false", FALSE);
      ("if", IF); ("else", ELSE); ("return", RETURN) ].

(** looks up if the string is LET FUNC or an IDENTIFIER *)
Definition LookupIdent (ident : string) : TokenType :=
  match keywords !! ident with
  | Some tok => tok
  | None => IDENTIFIER
  end.

End token.

(* ===================================================================== *)
(** ** package lexer *)
(* ===================================================================== *)
Module lexer.
Import token.

Record Lexer := mkLexer {
  input : string;
  position : Z;
  readPosition : Z;
  ch : ascii
}.

Definition len (s : string) : Z := Z.of_nat (String.length s).

(** [s[i]] for an index the callers keep in range; the zero byte stands
    in for the index panic that no caller can reach. *)
Definition byte_at (s : string) (i : Z) : ascii :=
  match String.get (Z.to_nat i) s with
  | Some c => c
  | None => zero
  end.

(** [s[a:b]] *)
Definition slice (s : string) (a b : Z) : string :=
  String.substring (Z.to_nat a) (Z.to_nat (b - a)) s.

(** [string(ch)] for a byte [ch]: Go converts the byte as a code point, so
    a byte of 128 or more becomes the two bytes of its UTF-8 encoding. *)
Definition string_of_byte (c : ascii) : string :=
  let n := nat_of_ascii c in
  if (n <? 128)%nat then String c EmptyString
  else String (ascii_of_nat (192 + n / 64))
         (String (ascii_of_nat (128 + n mod 64)) EmptyString).

(** moves the position of the char up by one *)
Definition readChar (l : Lexer) : Lexer :=
  let c := if len (input l) <=? readPosition l
           then zero
           else byte_at (input l) (readPosition l) in
  {| input := input l;
     position := readPosition l;
     readPosition := readPosition l + 1;
     ch := c |}.

Definition New (inp : string) : Lexer :=
  readChar {| input := inp; position := 0; readPosition := 0; ch := zero |}.

Definition byte_le (a b : ascii) : bool := (nat_of_ascii a <=? nat_of_ascii b)%nat.

Definition isLetter (c : ascii) : bool :=
  byte_le "a" c && byte_le c "z" || byte_le "A" c && byte_le c "Z"
  || Ascii.eqb c "_".

Definition isDigit (c : ascii) : bool := byte_le "0" c && byte_le c "9".

Definition isWhitespace (c : ascii) : bool :=
  Ascii.eqb c " " || Ascii.eqb c "010" || Ascii.eqb c "009" || Ascii.eqb c "013".

(** [for cond(l.ch) { l.readChar() }]: the loop shared by
    [skipWhitespace], [readIdentifier] and [readNumber].  The counter
    bounds the iterations; one more than the bytes left to read is
    always enough, because [readChar] yields the zero byte at the end of
    the input and no condition accepts it. *)
Fixpoint readWhile (cond : ascii -> bool) (n : nat) (l : Lexer) : Lexer :=
  if cond (ch l) then
    match n with
    | O => l
    | S n' => readWhile cond n' (readChar l)
    end
  else l.

Definition bound (l : Lexer) : nat := S (String.length (input l)).

Definition skipWhitespace (l : Lexer) : Lexer :=
  readWhile isWhitespace (bound l) l.

Definition peakchar (l : Lexer) : ascii :=
  if position l <? len (input l) - 1
  then byte_at (input l) (position l + 1)
  else zero.

Definition newToken (tokenType : TokenType) (c : ascii) : Token :=
  {| Type_ := tokenType; Literal := string_of_byte c |}.

(** returns the string that's the current token *)
Definition readIdentifier (l : Lexer) : string * Lexer :=
  let pos := position l in
  let l' := readWhile isLetter (bound l) l in
  (slice (input l') pos (position l'), l').

Definition readNumber (l : Lexer) : string * Lexer :=
  let pos := position l in
  let l' := readWhile isDigit (bound l) l in
  (slice (input l') pos (position l'), l').

(** The loop of [readString]: read a byte, and stop at the closing quote
    or at the zero byte. *)
Fixpoint readString_loop (n : nat) (l : Lexer) : Lexer :=
  let l' := readChar l in
  if Ascii.eqb (ch l') dquote || Ascii.eqb (ch l') zero then l'
  else match n with
       | O => l'
       | S n' => readString_loop n' l'
       end.

Definition readString (l : Lexer) : string * Lexer :=
  let pos := position l + 1 in
  let l' := readString_loop (bound l) l in
  (slice (input l') pos (position l'), l').

(** returns what the next token is *)
Definition NextToken (l0 : Lexer) : Token * Lexer :=
  let l := skipWhitespace l0 in
  let c := ch l in
  let single (t : TokenType) := (newToken t c, readChar l) in
  if Ascii.eqb c "=" then
    if Ascii.eqb (peakchar l) "=" then
      let l1 := readChar l in
      ({| Type_ := EQ; Literal := string_of_byte c ++ string_of_byte (ch l1) |},
       readChar l1)
    else single ASSIGN
  else if Ascii.eqb c ";" then single SEMICOLON
  else if Ascii.eqb c "(" then single LP
  else if Ascii.eqb c ")" then single RP
  else if Ascii.eqb c "," then single COMMA
  else if Ascii.eqb c "+" then single PLUS
  else if Ascii.eqb c "{" then single LB
  else if Ascii.eqb c "}" then single RB
  else if Ascii.eqb c "-" then single MINUS
  else if Ascii.eqb c "/" then single SLASH
  else if Ascii.eqb c "*" then single STAR
  else if Ascii.eqb c ">" then single GR
  else if Ascii.eqb c "<" then single LE
  else if Ascii.eqb c "!" then
    if Ascii.eqb (peakchar l) "=" then
      let l1 := readChar l in
      ({| Type_ := NEQ; Literal := string_of_byte c ++ string_of_byte (ch l1) |},
       readChar l1)
    else single EXCLA
  else if Ascii.eqb c zero then
    ({| Type_ := EOF; Literal := "" |}, readChar l)
  else if Ascii.eqb c dquote then
    let '(s, l1) := readString l in
    ({| Type_ := STRING; Literal := s |}, readChar l1)
  else if Ascii.eqb c "[" then single LSB
  else if Ascii.eqb c "]" then single RSB
  else if isLetter c then
    let '(s, l1) := readIdentifier l in
    ({| Type_ := LookupIdent s; Literal := s |}, l1)
  else if isDigit c then
    let '(s, l1) := readNumber l in
    ({| Type_ := INT; Literal := s |}, l1)
  else single ILLEGAL.

(** The first [n] tokens of a lexer, for running the lexer's test table. *)
Fixpoint tokens (n : nat) (l : Lexer) : list Token :=
  match n with
  | O => []
  | S n' => let '(t, l') := NextToken l in t :: tokens n' l'
  end.

End lexer.

(* ===================================================================== *)
(** ** package ast *)
(* ===================================================================== *)
(** Modelled from the spec: the declarations of package ast are not among
    the sources.  The node types below are the ones the parser builds and
    the evaluator switches on, with the fields those two read and write;
    the [Token] field each node carries for printing is left out, since
    neither of them reads it back. *)
Module ast.

Record Identifier := mkIdentifier { Value : string }.

(** [Expression] is Go's interface type: [NilExpression] is its nil
    value, which the parser returns for a construct it could not parse.
    A nil slice and an empty slice are both the empty list. *)
Inductive Expression :=
| NilExpression
| Ident (i : Identifier)
| IntegerLiteral (Value : Z)
| Boolean (Value : bool)
| StringLiteral (Value : string)
| Array (Items : list Expression)
| HashExpression (Pairs : list (Expression * Expression))
| PrefixExpression (Operator : string) (Right : Expression)
| InfixExpression (Operator : string) (Left Right : Expression)
| IfExpression (Condition : Expression) (Consequence : BlockStatements)
               (Alternatives : option BlockStatements)
| FunctionLiteral (Parameters : list Identifier) (Body : BlockStatements)
| CallExpression (Function : Expression) (Arguments : list Expression)
| IndexExpression (LeftExpression Index : Expression)
with Statement :=
| LetStatement (Name : Identifier) (Value : Expression)
| ReturnStatement (ReturnValue : Expression)
| ExpressionStatement (Expression_ : Expression)
with BlockStatements :=
| mkBlock (Statements : list Statement).

Record Program := mkProgram { Statements : list Statement }.

(** [Node] is the interface [Eval] takes: a program, a statement, a
    block or an expression. *)
Inductive Node :=
| NodeProgram (p : Program)
| NodeStatement (s : Statement)
| NodeBlock (b : BlockStatements)
| NodeExpression (e : Expression).

Definition isNil (e : Expression) : bool :=
  match e with NilExpression => true | _ => false end.

(** [m[key] = val] on the hash literal's [map[Expression]Expression].
    The keys are interface values holding pointers to freshly built
    nodes, so two keys are equal only when both are nil; the pairs are
    kept in the order in which they were written. *)
Definition Pairs_set (key val : Expression) (m : list (Expression * Expression))
  : list (Expression * Expression) :=
  if isNil key
  then filter (fun kv => negb (isNil (fst kv))) m ++ [(key, val)]
  else m ++ [(key, val)].

End ast.

(* ===================================================================== *)
(** ** package strconv (Go's library), as far as the parser uses it *)
(* ===================================================================== *)
Module strconv.

Definition digit_val (c : ascii) : Z := Z.of_nat (nat_of_ascii c) - 48.

(** The value of a run of digits of the given base, read left to right;
    [None] at a byte that is not a digit of that base. *)
Fixpoint digits (base : Z) (acc : Z) (s : string) : option Z :=
  match s with
  | EmptyString => Some acc
  | String c s' =>
      let d := digit_val c in
      if (0 <=? d) && (d <? base) then digits base (acc * base + d) s'
      else None
  end.

(** [ParseInt(s, 0, 64)] on the literals the lexer hands over, which are
    non-empty runs of decimal digits: with base 0 a leading zero selects
    octal, and a value of 2^63 or more is a range error.  [None] is the
    non-nil [err].  Signs, underscores and the 0x/0o/0b prefixes cannot
    occur in a digit run and are not modelled. *)
Definition ParseInt (s : string) : option Z :=
  match s with
  | EmptyString => None
  | String c s' =>
      match (if Ascii.eqb c "0" then digits 8 0 s' else digits 10 0 s) with
      | Some v => if v <? 2 ^ 63 then Some v else None
      | None => None
      end
  end.

(** [%q] of a string of printable bytes without quotes or backslashes. *)
Definition quote (s : string) : string :=
  String dquote s ++ String dquote "".

End strconv.

(* ===================================================================== *)
(** ** package parser *)
(* ===================================================================== *)
Module parser.
Import token ast.

Definition LOWEST : Z := 1.
Definition EQUALS : Z := 2.
Definition LESSGREATER : Z := 3.
Definition SUM : Z := 4.
Definition PRODUCT : Z := 5.
Definition PREFIX : Z := 6.
Definition CALL : Z := 7.
Definition INDEX : Z := 8.

Definition precedences : gmap TokenType Z :=
  list_to_map
    [ (EQ, EQUALS); (NEQ, EQUALS); (LE, LESSGREATER); (GR, LESSGREATER);
      (PLUS, SUM); (MINUS, SUM); (SLASH, PRODUCT); (STAR, PRODUCT);
      (LP, CALL); (LSB, INDEX) ].

(** The two dispatch tables are filled once by [New] and never change;
    they are the constant tables [prefixParseFns] and [infixParseFns]
    below rather than fields. *)
Record Parser := mkParser {
  l : lexer.Lexer;
  curToken : Token;
  peakToken : Token;
  errors : list string
}.

(** A parser method: it reads and updates the parser, and returns [None]
    only when the recursion budget of the model is used up. *)
Definition P (A : Type) : Type := Parser -> option (A * Parser).

#[global] Instance P_ret : MRet P := fun A a p => Some (a, p).
#[global] Instance P_bind : MBind P := fun A B f m p =>
  match m p with
  | Some (a, p') => f a p'
  | None => None
  end.

#[global] Instance P_fmap : FMap P := fun A B f m p =>
  match m p with
  | Some (a, p') => Some (f a, p')
  | None => None
  end.

Definition get : P Parser := fun p => Some (p, p).
Definition out_of_fuel {A} : P A := fun _ => None.

Definition nextToken : P unit := fun p =>
  let '(tok, l') := lexer.NextToken (l p) in
  Some (tt, {| l := l'; curToken := peakToken p; peakToken := tok;
               errors := errors p |}).

Definition addError (msg : string) : P unit := fun p =>
  Some (tt, {| l := l p; curToken := curToken p; peakToken := peakToken p;
               errors := errors p ++ [msg] |}).

Definition New (lx : lexer.Lexer) : option Parser :=
  let zero := {| Type_ := ""; Literal := "" |} in
  snd <$> (nextToken ;; nextToken)
            {| l := lx; curToken := zero; peakToken := zero; errors := [] |}.

Definition curTokenIs (t : TokenType) : P bool :=
  p ← get; mret (String.eqb (Type_ (curToken p)) t).

Definition peekTokenIs (t : TokenType) : P bool :=
  p ← get; mret (String.eqb (Type_ (peakToken p)) t).

Definition PeekError (t : TokenType) : P unit :=
  p ← get;
  addError ("expected next token to be " ++ t ++ ", got "
            ++ Type_ (peakToken p) ++ " instead").

Definition expectPeek (t : TokenType) : P bool :=
  b ← peekTokenIs t;
  if b : bool then nextToken ;; mret true
  else PeekError t ;; mret false.

Definition noPrefixParseFnError (t : TokenType) : P unit :=
  addError ("no prefix parse function for " ++ t ++ " found").

Definition peekPrecedence : P Z :=
  p ← get;
  mret (match precedences !! Type_ (peakToken p) with
        | Some pr => pr
        | None => LOWEST
        end).

Definition curPrecedence : P Z :=
  p ← get;
  mret (match precedences !! Type_ (curToken p) with
        | Some pr => pr
        | None => LOWEST
        end).

Definition parseBoolean : P Expression :=
  b ← curTokenIs TRUE; mret (Boolean b).

Definition parseIntegerLiteral : P Expression :=
  p ← get;
  match strconv.ParseInt (Literal (curToken p)) with
  | None =>
      addError ("could not parse " ++ strconv.quote (Literal (curToken p))
                ++ " as integer") ;;
      mret NilExpression
  | Some value => mret (IntegerLiteral value)
  end.

Definition parseIdentifier : P Expression :=
  p ← get; mret (Ident {| Value := Literal (curToken p) |}).

Definition parseStringLiteral : P Expression :=
  p ← get; mret (StringLiteral (Literal (curToken p))).

Section Methods.
(** The two methods every other one calls back into, at the depth the
    budget still allows, and the budget [n] of the loops. *)
Variable parseExpression : Z -> P Expression.
Variable parseStatement : P (option Statement).
Variable n : nat.

Definition parseExpreesionStatement : P Statement :=
  e ← parseExpression LOWEST;
  b ← peekTokenIs SEMICOLON;
  (if b : bool then nextToken else mret tt) ;;
  mret (ExpressionStatement e).

Definition parseReturnStatement : P (option Statement) :=
  nextToken ;;
  e ← parseExpression LOWEST;
  b ← peekTokenIs SEMICOLON;
  (if b : bool then nextToken else mret tt) ;;
  mret (Some (ReturnStatement e)).

Definition parseLetStatement : P (option Statement) :=
  ok ← expectPeek IDENTIFIER;
  if negb ok then mret None else
  p ← get;
  let name := {| Value := Literal (curToken p) |} in
  ok ← expectPeek ASSIGN;
  if negb ok then mret None else
  nextToken ;;
  e ← parseExpression LOWEST;
  b ← peekTokenIs SEMICOLON;
  (if b : bool then nextToken else mret tt) ;;
  mret (Some (LetStatement name e)).

(** [for p.peekTokenIs(token.COMMA) { ... }] of [parseExpressionList] *)
Fixpoint parseExpressionList_loop (k : nat) (acc : list Expression)
  : P (list Expression) :=
  b ← peekTokenIs COMMA;
  if b : bool then
    match k with
    | O => out_of_fuel
    | S k' =>
        nextToken ;; nextToken ;;
        e ← parseExpression LOWEST;
        parseExpressionList_loop k' (acc ++ [e])
    end
  else mret acc.

Definition parseExpressionList (expect : TokenType) : P (list Expression) :=
  b ← peekTokenIs expect;
  if b : bool then nextToken ;; mret [] else
  nextToken ;;
  e ← parseExpression LOWEST;
  expressions ← parseExpressionList_loop n [e];
  ok ← expectPeek expect;
  if negb ok then mret [] else mret expressions.

Definition parseCallExpression (function : Expression) : P Expression :=
  args ← parseExpressionList RP;
  mret (CallExpression function args).

Definition parseArrayExpression : P Expression :=
  items ← parseExpressionList RSB;
  mret (Array items).

Definition parseIndexExpression (leftExp : Expression) : P Expression :=
  nextToken ;;
  index ← parseExpression LOWEST;
  ok ← expectPeek RSB;
  if negb ok then mret NilExpression
  else mret (IndexExpression leftExp index).

(** [for !p.peekTokenIs(token.RB) { ... }] of [parseHashExpression];
    [None] inside the result is the early [return nil]. *)
Fixpoint parseHashExpression_loop (k : nat) (pairs : list (Expression * Expression))
  : P (option (list (Expression * Expression))) :=
  b ← peekTokenIs RB;
  if b : bool then mret (Some pairs) else
  match k with
  | O => out_of_fuel
  | S k' =>
      nextToken ;;
      key ← parseExpression LOWEST;
      ok ← expectPeek COLON;
      if negb ok then mret None else
      nextToken ;;
      val ← parseExpression LOWEST;
      let pairs' := Pairs_set key val pairs in
      b1 ← peekTokenIs RB;
      c ← (if negb b1 then negb <$> expectPeek COMMA else mret false);
      if c : bool then mret None
      else parseHashExpression_loop k' pairs'
  end.

Definition parseHashExpression : P Expression :=
  r ← parseHashExpression_loop n [];
  match r with
  | None => mret NilExpression
  | Some pairs =>
      ok ← expectPeek RB;
      if negb ok then mret NilExpression
      else mret (HashExpression pairs)
  end.

(** [for p.peekTokenIs(token.COMMA) { ... }] of [parseFunctionParameters] *)
Fixpoint parseFunctionParameters_loop (k : nat) (idents : list Identifier)
  : P (list Identifier) :=
  b ← peekTokenIs COMMA;
  if b : bool then
    match k with
    | O => out_of_fuel
    | S k' =>
        nextToken ;; nextToken ;;
        p ← get;
        parseFunctionParameters_loop k'
          (idents ++ [{| Value := Literal (curToken p) |}])
    end
  else mret idents.

Definition parseFunctionParameters : P (list Identifier) :=
  nextToken ;;
  b ← curTokenIs RP;
  if b : bool then mret [] else
  p ← get;
  idents ← parseFunctionParameters_loop n [{| Value := Literal (curToken p) |}];
  ok ← expectPeek RP;
  if negb ok then mret [] else mret idents.

(** [for !p.curTokenIs(token.RB) && !p.curTokenIs(token.EOF) { ... }] *)
Fixpoint parseBlockStatement_loop (k : nat) (stmts : list Statement)
  : P (list Statement) :=
  b1 ← curTokenIs RB;
  b2 ← curTokenIs EOF;
  if negb b1 && negb b2 then
    match k with
    | O => out_of_fuel
    | S k' =>
        stmt ← parseStatement;
        nextToken ;;
        parseBlockStatement_loop k'
          (match stmt with Some s => stmts ++ [s] | None => stmts end)
    end
  else mret stmts.

Definition parseBlockStatement : P BlockStatements :=
  nextToken ;;
  stmts ← parseBlockStatement_loop n [];
  mret (mkBlock stmts).

Definition parseFunction : P Expression :=
  ok ← expectPeek LP;
  if negb ok then mret NilExpression else
  params ← parseFunctionParameters;
  ok ← expectPeek LB;
  if negb ok then mret NilExpression else
  body ← parseBlockStatement;
  mret (FunctionLiteral params body).

Definition parseIfExpression : P Expression :=
  ok ← expectPeek LP;
  if negb ok then mret NilExpression else
  nextToken ;;
  cond ← parseExpression LOWEST;
  ok ← expectPeek RP;
  if negb ok then mret NilExpression else
  ok ← expectPeek LB;
  if negb ok then mret NilExpression else
  cons ← parseBlockStatement;
  b ← peekTokenIs ELSE;
  if b : bool then
    nextToken ;;
    ok ← expectPeek LB;
    if negb ok then mret NilExpression else
    alt ← parseBlockStatement;
    mret (IfExpression cond cons (Some alt))
  else mret (IfExpression cond cons None).

Definition parseGroupExpressions : P Expression :=
  nextToken ;;
  e ← parseExpression LOWEST;
  ok ← expectPeek RP;
  if negb ok then mret NilExpression else mret e.

Definition parseInfixExpression (left : Expression) : P Expression :=
  p ← get;
  let operator := Literal (curToken p) in
  precedence ← curPrecedence;
  nextToken ;;
  right ← parseExpression precedence;
  mret (InfixExpression operator left right).

Definition parsePrefixExpression : P Expression :=
  p ← get;
  let operator := Literal (curToken p) in
  nextToken ;;
  right ← parseExpression PREFIX;
  mret (PrefixExpression operator right).

(** The registrations of [New]. *)
Definition prefixParseFns : gmap TokenType (P Expression) :=
  list_to_map
    [ (LB, parseHashExpression); (LSB, parseArrayExpression);
      (STRING, parseStringLiteral); (FUNC, parseFunction);
      (IF, parseIfExpression); (LP, parseGroupExpressions);
      (IDENTIFIER, parseIdentifier); (INT, parseIntegerLiteral);
      (MINUS, parsePrefixExpression); (EXCLA, parsePrefixExpression);
      (TRUE, parseBoolean); (FALSE, parseBoolean) ].

Definition infixParseFns : gmap TokenType (Expression -> P Expression) :=
  list_to_map
    [ (LP, parseCallExpression); (PLUS, parseInfixExpression);
      (MINUS, parseInfixExpression); (SLASH, parseInfixExpression);
      (STAR, parseInfixExpression); (EQ, parseInfixExpression);
      (NEQ, parseInfixExpression); (LE, parseInfixExpression);
      (GR, parseInfixExpression); (LSB, parseIndexExpression) ].

(** The [for] loop of [parseExpression]. *)
Fixpoint parseExpression_loop (k : nat) (precedence : Z) (leftExp : Expression)
  : P Expression :=
  b ← peekTokenIs SEMICOLON;
  pp ← peekPrecedence;
  if negb b && (precedence <? pp) then
    p ← get;
    match infixParseFns !! Type_ (peakToken p) with
    | None => mret leftExp
    | Some infix =>
        match k with
        | O => out_of_fuel
        | S k' =>
            nextToken ;;
            leftExp' ← infix leftExp;
            parseExpression_loop k' precedence leftExp'
        end
    end
  else mret leftExp.

Definition parseExpression_body (precedence : Z) : P Expression :=
  p ← get;
  match prefixParseFns !! Type_ (curToken p) with
  | None =>
      noPrefixParseFnError (Type_ (curToken p)) ;;
      mret NilExpression
  | Some prefix =>
      leftExp ← prefix;
      parseExpression_loop n precedence leftExp
  end.

Definition parseStatement_body : P (option Statement) :=
  p ← get;
  if String.eqb (Type_ (curToken p)) LET then parseLetStatement
  else if String.eqb (Type_ (curToken p)) RETURN then parseReturnStatement
  else Some <$> parseExpreesionStatement.

End Methods.

(** [parseExpression] and [parseStatement], tied together over a budget
    of nested calls. *)
Fixpoint parseExpression (fuel : nat) (precedence : Z) : P Expression :=
  match fuel with
  | O => out_of_fuel
  | S f => parseExpression_body (parseExpression f) (parseStatement f) f precedence
  end
with parseStatement (fuel : nat) : P (option Statement) :=
  match fuel with
  | O => out_of_fuel
  | S f => parseStatement_body (parseExpression f)
  end.

(** [for p.curToken.Type != token.EOF { ... }] of [ParseProgram] *)
Fixpoint ParseProgram_loop (fuel : nat) (stmts : list Statement)
  : P (list Statement) :=
  p ← get;
  if negb (String.eqb (Type_ (curToken p)) EOF) then
    match fuel with
    | O => out_of_fuel
    | S f =>
        stmt ← parseStatement fuel;
        nextToken ;;
        ParseProgram_loop f
          (match stmt with Some s => stmts ++ [s] | None => stmts end)
    end
  else mret stmts.

Definition ParseProgram (fuel : nat) : P Program :=
  stmts ← ParseProgram_loop fuel [];
  mret {| Statements := stmts |}.

Definition Errors (p : Parser) : list string := errors p.

End parser.

(** Lexing and parsing a source text: the program and the parser it
    leaves, with its accumulated errors. *)
Definition parse (fuel : nat) (src : string) :=
  match parser.New (lexer.New src) with
  | Some p => parser.ParseProgram fuel p
  | None => None
  end.

(* ===================================================================== *)
(** ** package object *)
(* ===================================================================== *)
Module object.

Definition ObjectType := string.

Definition INTEGER_OBJ : ObjectType := "INTEGER".
Definition BOOLEAN_OBJ : ObjectType := "BOOLEAN".
Definition NULL_OBJ : ObjectType := "NULL".
Definition RETURN_VALUE_OBJ : ObjectType := "RETURN VALUE".
Definition ERROR_OBJ : ObjectType := "ERROR".
Definition FUNCTION_OBJ : ObjectType := "FUNCTION".
Definition STRING_OBJ : ObjectType := "STRING".
Definition BUILTIN_OBJ : ObjectType := "BUILTIN".
Definition ARRAY_OBJ : ObjectType := "ARRAY".
Definition HASH_OBJ : ObjectType := "HASH".

(** Every object is reached through a pointer, and the evaluator
    compares objects by pointer.  An object therefore carries the address
    it was allocated at; an environment is referred to by its index in
    the store of environments. *)
Definition addr := nat.
Definition envref := nat.

(** The native functions a [Builtin] can hold: the six of the registry. *)
Inductive BuiltinFunction :=
| fn_len | fn_first | fn_last | fn_rest | fn_push | fn_puts.

(** [Object] is Go's interface type: [Nil] is its nil value, every other
    constructor is a pointer to the struct of that name. *)
Inductive Object :=
| Nil
| Builtin (a : addr) (Fn : BuiltinFunction)
| Integer (a : addr) (Value : Z)
| Boolean (a : addr) (Value : bool)
| Null (a : addr)
| ReturnValue (a : addr) (Value : Object)
| Error (a : addr) (Message : string)
| Function (a : addr) (Parameters : list ast.Identifier)
           (Body : ast.BlockStatements) (Env : envref)
| String_ (a : addr) (Value : string)
| Array (a : addr) (Elements : list Object)
| Hash (a : addr) (Pairs : list (Object * Object)).

(** The method [Type()]; [None] is the panic of a call on the nil
    interface. *)
Definition Type_ (o : Object) : option ObjectType :=
  match o with
  | Nil => None
  | Builtin _ _ => Some BUILTIN_OBJ
  | Integer _ _ => Some INTEGER_OBJ
  | Boolean _ _ => Some BOOLEAN_OBJ
  | Null _ => Some NULL_OBJ
  | ReturnValue _ _ => Some RETURN_VALUE_OBJ
  | Error _ _ => Some ERROR_OBJ
  | Function _ _ _ _ => Some FUNCTION_OBJ
  | String_ _ _ => Some STRING_OBJ
  | Array _ _ => Some ARRAY_OBJ
  | Hash _ _ => Some HASH_OBJ
  end.

Definition address (o : Object) : option addr :=
  match o with
  | Nil => None
  | Builtin a _ | Integer a _ | Boolean a _ | Null a | ReturnValue a _
  | Error a _ | Function a _ _ _ | String_ a _ | Array a _ | Hash a _ => Some a
  end.

(** Go's [==] on two [Object] interface values: both nil, or the same
    dynamic type and the same pointer. *)
Definition same (x y : Object) : bool :=
  match Type_ x, Type_ y, address x, address y with
  | None, None, _, _ => true
  | Some tx, Some ty, Some ax, Some ay => String.eqb tx ty && Nat.eqb ax ay
  | _, _, _, _ => false
  end.

(** Whether [Inspect()] returns: it calls [Inspect()] on what a return
    value wraps and on every element of an array or hash, and a call on
    nil panics.  The text [Inspect()] renders is not modelled: that of a
    function is made by the printer of package ast, which is not among the
    sources and is taken to return. *)
Fixpoint can_Inspect (o : Object) : bool :=
  match o with
  | Nil => false
  | ReturnValue _ v => can_Inspect v
  | Array _ es => forallb can_Inspect es
  | Hash _ ps =>
      forallb (fun kv => match kv with (k, v) => can_Inspect k && can_Inspect v end) ps
  | _ => true
  end.

(** Modelled from the spec: the type [Enviroment] and its functions
    ([NewEnviroment], [NewEnclosedEnviroment], [Get], [Set]) are not among
    the sources.  The spec gives it as bindings from name to Object plus
    an optional shared reference to a parent; [Get] looks in the own
    bindings first and then along the parents, [Set] writes the own
    bindings. *)
Record Enviroment := mkEnviroment {
  store : gmap string Object;
  outer : option envref
}.

(** What a walk along the chain of environments finds: the binding, no
    binding, a reference to no environment (a nil pointer), or a chain
    longer than the walk was allowed to be. *)
Inductive lookup_result :=
| Found (val : Object)
| NotFound
| NoEnviroment
| ChainTooLong.

(** [Get] on the environment at [e] of the store [envs], walking at most
    [k] parents.  Parents are older than their children, so a chain is
    never longer than the store. *)
Fixpoint Get_from (k : nat) (envs : list Enviroment) (e : envref) (name : string)
  : lookup_result :=
  match envs !! e with
  | None => NoEnviroment
  | Some E =>
      match store E !! name with
      | Some v => Found v
      | None =>
          match outer E, k with
          | Some o, S k' => Get_from k' envs o name
          | Some _, O => ChainTooLong
          | None, _ => NotFound
          end
      end
  end.

Definition Set_in (envs : list Enviroment) (e : envref) (name : string) (val : Object)
  : option (list Enviroment) :=
  match envs !! e with
  | None => None
  | Some E =>
      Some (<[e := {| store := <[name := val]> (store E); outer := outer E |}]> envs)
  end.

End object.

(* ===================================================================== *)
(** ** package evaluator *)
(* ===================================================================== *)
Module evaluator.
Import object.

(** What the evaluator's run has changed so far: the environments that
    exist, the next free address, and the objects [puts] has printed. *)
Record State := mkState {
  envs : list Enviroment;
  next : addr;
  printed : list Object
}.

(** How a call ends: with a value and the state it leaves, with a Go
    run-time panic, or with the recursion budget of the model used up. *)
Inductive outcome (A : Type) :=
| Ok (a : A) (s : State)
| Panic (msg : string)
| OutOfFuel.
Arguments Ok {A} a s.
Arguments Panic {A} msg.
Arguments OutOfFuel {A}.

Definition M (A : Type) : Type := State -> outcome A.

#[global] Instance M_ret : MRet M := fun A a s => Ok a s.
#[global] Instance M_bind : MBind M := fun A B f m s =>
  match m s with
  | Ok a s' => f a s'
  | Panic msg => Panic msg
  | OutOfFuel => OutOfFuel
  end.

Definition panic {A} (msg : string) : M A := fun _ => Panic msg.
Definition out_of_fuel {A} : M A := fun _ => OutOfFuel.

Definition nil_dereference : string :=
  "runtime error: invalid memory address or nil pointer dereference".
Definition divide_by_zero : string := "runtime error: integer divide by zero".
Definition index_out_of_range (i len : nat) : string :=
  "runtime error: index out of range [" ++ pretty i ++ "] with length " ++ pretty len.
Definition interface_conversion : string := "interface conversion: wrong dynamic type".

(** [&object.T{...}]: a fresh address. *)
Definition allocated (s : State) : State :=
  {| envs := envs s; next := S (next s); printed := printed s |}.

Definition alloc : M addr := fun s => Ok (next s) (allocated s).

(** [o.Type()] *)
Definition TypeOf (o : Object) : M ObjectType :=
  match Type_ o with
  | Some t => mret t
  | None => panic nil_dereference
  end.

(** The methods of [Enviroment] on the store of environments. *)
Definition NewEnviroment : M envref := fun s =>
  Ok (length (envs s))
     {| envs := envs s ++ [{| store := ∅; outer := None |}];
        next := next s; printed := printed s |}.

Definition NewEnclosedEnviroment (o : envref) : M envref := fun s =>
  Ok (length (envs s))
     {| envs := envs s ++ [{| store := ∅; outer := Some o |}];
        next := next s; printed := printed s |}.

Definition Get (e : envref) (name : string) : M (option Object) := fun s =>
  match Get_from (length (envs s)) (envs s) e name with
  | Found val => Ok (Some val) s
  | NotFound => Ok None s
  | NoEnviroment => Panic nil_dereference
  | ChainTooLong => OutOfFuel
  end.

Definition Set_ (e : envref) (name : string) (val : Object) : M unit := fun s =>
  match Set_in (envs s) e name val with
  | Some envs' => Ok tt {| envs := envs'; next := next s; printed := printed s |}
  | None => Panic nil_dereference
  end.

Definition print (o : Object) : M unit := fun s =>
  Ok tt {| envs := envs s; next := next s; printed := printed s ++ [o] |}.

(** The three singletons, allocated once when the package is loaded. *)
Definition NULL : Object := Null 0%nat.
Definition TRUE : Object := Boolean 1%nat true.
Definition FALSE : Object := Boolean 2%nat false.

(** 64-bit two's-complement wrap-around of [int64] arithmetic. *)
Definition wrap64 (z : Z) : Z := (z + 2 ^ 63) mod 2 ^ 64 - 2 ^ 63.

Definition newError (msg : string) : M Object :=
  a ← alloc; mret (Error a msg).

Definition isError (obj : Object) : bool :=
  match Type_ obj with
  | Some t => String.eqb t ERROR_OBJ
  | None => false
  end.

Definition nativeBoolObject (input : bool) : Object :=
  if input then TRUE else FALSE.

(* ------------------------------------------------------------------- *)
(** *** The builtin registry *)

Definition wrong_number_of_arguments (got : nat) (want : string) : string :=
  "wrong number of arguments. got=" ++ pretty got ++ ", want=" ++ want.

(** The body of each native function, on its argument list. *)
Definition builtin_len (args : list Object) : M Object :=
  if negb (Nat.eqb (length args) 1)
  then newError (wrong_number_of_arguments (length args) "1")
  else match args with
       | Array _ es :: _ => a ← alloc; mret (Integer a (Z.of_nat (length es)))
       | String_ _ v :: _ => a ← alloc; mret (Integer a (Z.of_nat (String.length v)))
       | arg :: _ =>
           t ← TypeOf arg;
           newError ("argument to `len` not supported, got " ++ t)
       | [] => panic (index_out_of_range 0%nat 0%nat)
       end.

Definition builtin_first (args : list Object) : M Object :=
  if negb (Nat.eqb (length args) 1)
  then newError (wrong_number_of_arguments (length args) "1")
  else match args with
       | Array _ es :: _ =>
           if (length es <? 1)%nat then mret NULL
           else match es !! 0%nat with
                | Some e => mret e
                | None => panic (index_out_of_range 0%nat (length es))
                end
       | arg :: _ =>
           t ← TypeOf arg;
           newError ("argument to `first` must be ARRAY, got " ++ t)
       | [] => panic (index_out_of_range 0%nat 0%nat)
       end.

Definition builtin_last (args : list Object) : M Object :=
  if negb (Nat.eqb (length args) 1)
  then newError (wrong_number_of_arguments (length args) "1")
  else match args with
       | Array _ es :: _ =>
           if (length es <? 1)%nat then mret NULL
           else match es !! (length es - 1)%nat with
                | Some e => mret e
                | None => panic (index_out_of_range (length es - 1) (length es))
                end
       | arg :: _ =>
           t ← TypeOf arg;
           newError ("argument to `last` must be ARRAY, got " ++ t)
       | [] => panic (index_out_of_range 0%nat 0%nat)
       end.

Definition builtin_rest (args : list Object) : M Object :=
  if negb (Nat.eqb (length args) 1)
  then newError (wrong_number_of_arguments (length args) "1")
  else match args with
       | Array _ es :: _ =>
           if (length es <? 1)%nat then mret NULL
           else a ← alloc; mret (Array a (drop 1 es))
       | arg :: _ =>
           t ← TypeOf arg;
           newError ("argument to `rest` must be ARRAY, got " ++ t)
       | [] => panic (index_out_of_range 0%nat 0%nat)
       end.

(** [append] may place the new element in spare capacity of the
    argument's backing array; the model gives the contents of the slice
    [push] returns. *)
Definition builtin_push (args : list Object) : M Object :=
  if negb (Nat.eqb (length args) 2)
  then newError (wrong_number_of_arguments (length args) "2")
  else match args with
       | Array _ es :: x :: _ => a ← alloc; mret (Array a (es ++ [x]))
       | arg :: _ =>
           t ← TypeOf arg;
           newError ("argument to `push` must be ARRAY, got " ++ t)
       | [] => panic (index_out_of_range 0%nat 0%nat)
       end.

Fixpoint builtin_puts (args : list Object) : M Object :=
  match args with
  | [] => mret NULL
  | arg :: rest =>
      (if can_Inspect arg then print arg else panic nil_dereference) ;;
      builtin_puts rest
  end.

(** [fn.Fn(args...)] *)
Definition call (f : BuiltinFunction) (args : list Object) : M Object :=
  match f with
  | fn_len => builtin_len args
  | fn_first => builtin_first args
  | fn_last => builtin_last args
  | fn_rest => builtin_rest args
  | fn_push => builtin_push args
  | fn_puts => builtin_puts args
  end.

(** The map literal [builtins]; its six [Builtin] objects are allocated
    once, after the three singletons. *)
Definition builtins : gmap string Object :=
  list_to_map
    [ ("len", Builtin 3%nat fn_len); ("first", Builtin 4%nat fn_first);
      ("last", Builtin 5%nat fn_last); ("rest", Builtin 6%nat fn_rest);
      ("push", Builtin 7%nat fn_push); ("puts", Builtin 8%nat fn_puts) ].

(* ------------------------------------------------------------------- *)
(** *** The evaluator proper *)

Definition evalBangOperatorExpression (val : Object) : Object :=
  if same val TRUE then FALSE
  else if same val FALSE then TRUE
  else if same val NULL then TRUE
  else FALSE.

Definition evalMinusPrefixOperator (val : Object) : M Object :=
  t ← TypeOf val;
  if negb (String.eqb t INTEGER_OBJ)
  then newError ("unknown operator: -" ++ t)
  else match val with
       | Integer _ value => a ← alloc; mret (Integer a (wrap64 (- value)))
       | _ => panic interface_conversion
       end.

Definition evalPrefixExpressions (op : string) (val : Object) : M Object :=
  if String.eqb op "!" then mret (evalBangOperatorExpression val)
  else if String.eqb op "-" then evalMinusPrefixOperator val
  else t ← TypeOf val; newError ("unknown operator: " ++ op ++ t).

Definition evalInfixIntegerExpression (op : string) (right left : Object) : M Object :=
  match right, left with
  | Integer _ right_val, Integer _ left_val =>
      if String.eqb op "+" then
        a ← alloc; mret (Integer a (wrap64 (right_val + left_val)))
      else if String.eqb op "-" then
        a ← alloc; mret (Integer a (wrap64 (left_val - right_val)))
      else if String.eqb op "*" then
        a ← alloc; mret (Integer a (wrap64 (right_val * left_val)))
      else if String.eqb op "/" then
        if right_val =? 0 then panic divide_by_zero
        else a ← alloc; mret (Integer a (wrap64 (left_val ÷ right_val)))
      else if String.eqb op ">" then mret (nativeBoolObject (left_val >? right_val))
      else if String.eqb op "<" then mret (nativeBoolObject (left_val <? right_val))
      else if String.eqb op "==" then mret (nativeBoolObject (left_val =? right_val))
      else if String.eqb op "!=" then mret (nativeBoolObject (negb (left_val =? right_val)))
      else
        lt ← TypeOf left; rt ← TypeOf right;
        newError ("unknown operator: " ++ lt ++ " " ++ op ++ " " ++ rt)
  | _, _ => panic interface_conversion
  end.

Definition evalInfixStringExpression (op : string) (right left : Object) : M Object :=
  if negb (String.eqb op "+") then
    lt ← TypeOf left; rt ← TypeOf right;
    newError ("unknown operator: " ++ lt ++ " " ++ op ++ " " ++ rt)
  else
    match left, right with
    | String_ _ leftVal, String_ _ rightVal =>
        a ← alloc; mret (String_ a (leftVal ++ rightVal))
    | _, _ => panic interface_conversion
    end.

(** [x.Type() == t1 && y.Type() == t2], with Go's left-to-right
    short-circuit: [y.Type()] is called only when the first test holds. *)
Definition both_types (x : Object) (t1 : ObjectType) (y : Object) (t2 : ObjectType)
  : M bool :=
  tx ← TypeOf x;
  if String.eqb tx t1 then ty ← TypeOf y; mret (String.eqb ty t2)
  else mret false.

Definition evalInfixExpression (op : string) (right left : Object) : M Object :=
  ints ← both_types right INTEGER_OBJ left INTEGER_OBJ;
  if ints : bool then evalInfixIntegerExpression op right left else
  strs ← both_types right STRING_OBJ left STRING_OBJ;
  if strs : bool then evalInfixStringExpression op right left else
  if String.eqb op "==" then mret (nativeBoolObject (same left right)) else
  if String.eqb op "!=" then mret (nativeBoolObject (negb (same right left))) else
  rt ← TypeOf right;
  lt ← TypeOf left;
  if negb (String.eqb rt lt)
  then newError ("type mismatch: " ++ lt ++ " " ++ op ++ " " ++ rt)
  else newError ("unknown operator: " ++ lt ++ " " ++ op ++ " " ++ rt).

Definition evalArrayIndexExpression (array index : Object) : M Object :=
  match array, index with
  | Array _ Elements, Integer _ idx =>
      let max := Z.of_nat (length Elements) - 1 in
      if (idx <? 0) || (max <? idx) then mret NULL
      else match Elements !! Z.to_nat idx with
           | Some e => mret e
           | None => panic (index_out_of_range (Z.to_nat idx) (length Elements))
           end
  | _, _ => panic interface_conversion
  end.

Definition evalIndexExpression (left index : Object) : M Object :=
  ok ← both_types left ARRAY_OBJ index INTEGER_OBJ;
  if ok : bool then evalArrayIndexExpression left index
  else t ← TypeOf left; newError ("index operator not supported: " ++ t).

Definition evalIdentifier (name : string) (env : envref) : M Object :=
  r ← Get env name;
  match r with
  | Some val => mret val
  | None =>
      match builtins !! name with
      | Some val => mret val
      | None => newError ("identifier not found: " ++ name)
      end
  end.

Section Recursion.
(** [Eval] itself, at the depth the budget still allows. *)
Variable Eval : ast.Node -> envref -> M Object.

Fixpoint evalProgram_loop (stmts : list ast.Statement) (env : envref)
    (result : Object) : M Object :=
  match stmts with
  | [] => mret result
  | statement :: rest =>
      result ← Eval (ast.NodeStatement statement) env;
      match result with
      | ReturnValue _ Value => mret Value
      | Error _ _ => mret result
      | _ => evalProgram_loop rest env result
      end
  end.

Definition evalProgram (program : ast.Program) (env : envref) : M Object :=
  evalProgram_loop (ast.Statements program) env Nil.

Fixpoint evalStatements_loop (stmts : list ast.Statement) (env : envref)
    (result : Object) : M Object :=
  match stmts with
  | [] => mret result
  | statement :: rest =>
      result ← Eval (ast.NodeStatement statement) env;
      match Type_ result with
      | Some t =>
          if String.eqb t RETURN_VALUE_OBJ || String.eqb t ERROR_OBJ
          then mret result
          else evalStatements_loop rest env result
      | None => evalStatements_loop rest env result
      end
  end.

Definition evalStatements (stmts : list ast.Statement) (env : envref) : M Object :=
  evalStatements_loop stmts env Nil.

Fixpoint evalExpressions_loop (exps : list ast.Expression) (env : envref)
    (res : list Object) : M (list Object) :=
  match exps with
  | [] => mret res
  | exp :: rest =>
      evaluated ← Eval (ast.NodeExpression exp) env;
      if isError evaluated then mret [evaluated]
      else evalExpressions_loop rest env (res ++ [evaluated])
  end.

Definition evalExpressions (exps : list ast.Expression) (env : envref)
  : M (list Object) :=
  evalExpressions_loop exps env [].

Definition evalIfExpression (Condition : ast.Expression)
    (Consequence : ast.BlockStatements) (Alternatives : option ast.BlockStatements)
    (env : envref) : M Object :=
  res ← Eval (ast.NodeExpression Condition) env;
  if isError res then mret res else
  t ← TypeOf res;
  if String.eqb t BOOLEAN_OBJ && (same res NULL || same res FALSE) then
    match Alternatives with
    | None => mret NULL
    | Some alt => Eval (ast.NodeBlock alt) env
    end
  else Eval (ast.NodeBlock Consequence) env.

(** [for paramID, p := range fn.Parameters
       { new_env.Set(p.Value, params[paramID]) }] *)
Fixpoint bind_parameters (Parameters : list ast.Identifier) (paramID : nat)
    (params : list Object) (new_env : envref) : M unit :=
  match Parameters with
  | [] => mret tt
  | p :: rest =>
      match params !! paramID with
      | None => panic (index_out_of_range paramID (length params))
      | Some arg =>
          Set_ new_env (ast.Value p) arg ;;
          bind_parameters rest (S paramID) params new_env
      end
  end.

Definition applyFunction (fn : Object) (params : list Object) : M Object :=
  match fn with
  | Function _ Parameters Body Env =>
      new_env ← NewEnclosedEnviroment Env;
      bind_parameters Parameters 0%nat params new_env ;;
      evaluated ← Eval (ast.NodeBlock Body) new_env;
      match evaluated with
      | ReturnValue _ Value => mret Value
      | _ => mret evaluated
      end
  | Builtin _ Fn =>
      if negb (Nat.eqb (length params) 1)
      then newError (wrong_number_of_arguments (length params) "1")
      else call Fn params
  | _ =>
      t ← TypeOf fn;
      newError ("not a function: " ++ t)
  end.

(** One unfolding of [Eval]'s type switch.  A node no case matches
    (the nil interface, a hash literal) falls out of the switch, and so
    does a [let] once it has bound its name: [Eval] returns nil. *)
Definition Eval_body (node : ast.Node) (env : envref) : M Object :=
  match node with
  | ast.NodeProgram program => evalProgram program env
  | ast.NodeStatement (ast.ExpressionStatement e) =>
      Eval (ast.NodeExpression e) env
  | ast.NodeExpression (ast.IntegerLiteral Value) =>
      a ← alloc; mret (Integer a Value)
  | ast.NodeExpression (ast.Boolean Value) => mret (nativeBoolObject Value)
  | ast.NodeExpression (ast.PrefixExpression Operator Right) =>
      right ← Eval (ast.NodeExpression Right) env;
      if isError right then mret right
      else evalPrefixExpressions Operator right
  | ast.NodeExpression (ast.InfixExpression Operator Left Right) =>
      left ← Eval (ast.NodeExpression Left) env;
      if isError left then mret left else
      right ← Eval (ast.NodeExpression Right) env;
      if isError right then mret right else
      evalInfixExpression Operator right left
  | ast.NodeExpression (ast.IfExpression c t e) => evalIfExpression c t e env
  | ast.NodeBlock (ast.mkBlock Statements) => evalStatements Statements env
  | ast.NodeStatement (ast.ReturnStatement ReturnValue_) =>
      val ← Eval (ast.NodeExpression ReturnValue_) env;
      if isError val then mret val
      else a ← alloc; mret (ReturnValue a val)
  | ast.NodeStatement (ast.LetStatement Name Value) =>
      exp ← Eval (ast.NodeExpression Value) env;
      if isError exp then mret exp
      else Set_ env (ast.Value Name) exp ;; mret Nil
  | ast.NodeExpression (ast.Ident i) => evalIdentifier (ast.Value i) env
  | ast.NodeExpression (ast.FunctionLiteral Parameters Body) =>
      a ← alloc; mret (Function a Parameters Body env)
  | ast.NodeExpression (ast.CallExpression Function_ Arguments) =>
      function ← Eval (ast.NodeExpression Function_) env;
      if isError function then mret function else
      params ← evalExpressions Arguments env;
      match params with
      | [p] => if isError p then mret p else applyFunction function params
      | _ => applyFunction function params
      end
  | ast.NodeExpression (ast.StringLiteral Value) =>
      a ← alloc; mret (String_ a Value)
  | ast.NodeExpression (ast.Array Items) =>
      ele ← evalExpressions Items env;
      match ele with
      | [e] => if isError e then mret e else a ← alloc; mret (Array a ele)
      | _ => a ← alloc; mret (Array a ele)
      end
  | ast.NodeExpression (ast.IndexExpression LeftExpression Index) =>
      leftexp ← Eval (ast.NodeExpression LeftExpression) env;
      index ← Eval (ast.NodeExpression Index) env;
      if isError leftexp then mret leftexp else
      if isError index then mret index else
      evalIndexExpression leftexp index
  | ast.NodeExpression ast.NilExpression => mret Nil
  | ast.NodeExpression (ast.HashExpression _) => mret Nil
  end.

End Recursion.

Fixpoint Eval (fuel : nat) (node : ast.Node) (env : envref) : M Object :=
  match fuel with
  | O => out_of_fuel
  | S f => Eval_body (Eval f) node env
  end.

(** The state a run starts from: no environment yet, and the addresses
    of the singletons and of the registry taken. *)
Definition initial : State := {| envs := []; next := 9%nat; printed := [] |}.

End evaluator.


(** The whole pipeline on a source text: lex, parse, and evaluate the
    program in a fresh environment. *)
Definition run (fuel : nat) (src : string) : option (list string * evaluator.outcome object.Object) :=
  match parse fuel src with
  | Some (program, p) =>
      Some (parser.Errors p,
            (env ← evaluator.NewEnviroment;
             evaluator.Eval fuel (ast.NodeProgram program) env) evaluator.initial)
  | None => None
  end.

(** The result of a run without the final state: the parse errors, and
    the object returned or the panic ([inr None] when the budget of the
    model ran out). *)
Definition value_of (r : option (list string * evaluator.outcome object.Object)) :=
  match r with
  | Some (errs, evaluator.Ok v _) => Some (errs, inl v)
  | Some (errs, evaluator.Panic m) => Some (errs, inr (Some m))
  | Some (errs, evaluator.OutOfFuel) => Some (errs, inr None)
  | None => None
  end.

(** The source text of a string literal: its bytes between two quotes. *)
Definition quoted (s : string) : string := String dquote s ++ String dquote "".

(** ** Precedence levels *)

(** The binary operators of the precedence table, each with its level
    (the table's two other entries are the call and the index). *)
Definition binary_operators : list (token.TokenType * Z) :=
  [ (token.EQ, parser.EQUALS); (token.NEQ, parser.EQUALS);
    (token.LE, parser.LESSGREATER); (token.GR, parser.LESSGREATER);
    (token.PLUS, parser.SUM); (token.MINUS, parser.SUM);
    (token.SLASH, parser.PRODUCT); (token.STAR, parser.PRODUCT) ].

(** The level [peekPrecedence] and [curPrecedence] give a token kind. *)
Definition level (t : token.TokenType) : Z :=
  match parser.precedences !! t with
  | Some q => q
  | None => parser.LOWEST
  end.

(** A token kind at which the loop of [parseExpression] ends when it runs
    at the level [prec]. *)
Definition stops_at (prec : Z) (t : token.TokenType) : Prop :=
  t = token.SEMICOLON \/ level t <= prec.

(** A token kind that ends every expression: the semicolon, and the kinds
    without an entry in the precedence table (EOF, the closing brackets,
    the comma, ...). *)
Definition ends_an_expression (t : token.TokenType) : Prop :=
  t = token.SEMICOLON \/ parser.precedences !! t = None.

Definition INT_token (s : string) : token.Token :=
  {| token.Type_ := token.INT; token.Literal := s |}.

(* ===================================================================== *)
(** * Properties *)
(* ===================================================================== *)

Import evaluator.

(** Unfolding of the evaluator's monad in a goal or a hypothesis. *)
Ltac unmonad := unfold mbind, M_bind, mret, M_ret, newError, alloc, panic in *.

(** ** The loops of the lexer end within their bound *)

Section LexerLoops.
Import lexer.

(** At the end of the input [readChar] yields the zero byte. *)
Lemma readChar_at_end l :
  len (input l) <= readPosition l -> ch (readChar l) = zero.
Proof.
  intros H. unfold readChar. simpl.
  destruct (Z.leb_spec (len (input l)) (readPosition l)); [reflexivity | lia].
Qed.

Lemma readWhile_stop cond n l :
  cond (ch l) = false -> readWhile cond n l = l.
Proof. intros H. destruct n; simpl; rewrite H; reflexivity. Qed.

(** A loop that reads on while a condition holds of the current byte has
    left the condition behind when it ends, if the condition rejects the
    zero byte and the counter exceeds the number of bytes left. *)
Lemma readWhile_done cond :
  cond zero = false ->
  forall n l,
    (Z.to_nat (len (input l) - readPosition l) < n)%nat ->
    cond (ch (readWhile cond n l)) = false.
Proof.
  intros H0. induction n as [|n IH]; intros l Hn; [lia|].
  simpl. destruct (cond (ch l)) eqn:C; [|exact C].
  destruct (Z.leb_spec (len (input l)) (readPosition l)) as [Hend|Hin].
  - rewrite readWhile_stop; rewrite (readChar_at_end l Hend); exact H0.
  - apply IH. simpl. lia.
Qed.


Lemma readIdentifier_done l :
  0 <= readPosition l -> isLetter (ch (snd (readIdentifier l))) = false.
Proof.
  intros H. unfold readIdentifier, bound. cbn [snd].
  apply readWhile_done; [reflexivity | unfold len; lia].
Qed.

Lemma readNumber_done l :
  0 <= readPosition l -> isDigit (ch (snd (readNumber l))) = false.
Proof.
  intros H. unfold readNumber, bound. cbn [snd].
  apply readWhile_done; [reflexivity | unfold len; lia].
Qed.

(** The loop of [readString] ends on the closing quote or on the zero
    byte of the end of the input. *)
Lemma readString_loop_done n : forall l,
  (Z.to_nat (len (input l) - readPosition l) <= n)%nat ->
  Ascii.eqb (ch (readString_loop n l)) dquote
  || Ascii.eqb (ch (readString_loop n l)) zero = true.
Proof.
  induction n as [|n IH]; intros l Hn.
  - assert (Hend : len (input l) <= readPosition l) by lia.
    replace (readString_loop 0 l) with (readChar l)
      by (unfold readString_loop; destruct (_ || _); reflexivity).
    rewrite (readChar_at_end l Hend). reflexivity.
  - change (readString_loop (S n) l)
      with (if Ascii.eqb (ch (readChar l)) dquote || Ascii.eqb (ch (readChar l)) zero
            then readChar l else readString_loop n (readChar l)).
    destruct (Ascii.eqb (ch (readChar l)) dquote
              || Ascii.eqb (ch (readChar l)) zero) eqn:C; [exact C|].
    apply IH.
    destruct (Z.leb_spec (len (input l)) (readPosition l)) as [Hend|Hin].
    + rewrite (readChar_at_end l Hend) in C. vm_compute in C. discriminate.
    + simpl. lia.
Qed.

Lemma readString_done l :
  0 <= readPosition l ->
  Ascii.eqb (ch (snd (readString l))) dquote
  || Ascii.eqb (ch (snd (readString l))) zero = true.
Proof.
  intros H. unfold readString, bound. cbn [snd].
  apply readString_loop_done. unfold len. lia.
Qed.

End LexerLoops.

(** ** Statement sequences *)

(** A result at which a statement sequence stops: its tag is
    [RETURN VALUE] or [ERROR]. *)
Definition stops (r : object.Object) : bool :=
  match object.Type_ r with
  | Some t => String.eqb t object.RETURN_VALUE_OBJ || String.eqb t object.ERROR_OBJ
  | None => false
  end.

Section Sequences.
Variable E : ast.Node -> object.envref -> M object.Object.

(** A block whose first statements ran through without stopping goes on
    with the statements after them. *)
Lemma evalStatements_loop_app pre more env r0 st r1 st1 :
  evalStatements_loop E pre env r0 st = Ok r1 st1 ->
  stops r1 = false ->
  evalStatements_loop E (pre ++ more) env r0 st
  = evalStatements_loop E more env r1 st1.
Proof.
  revert r0 st. induction pre as [|s pre IH]; intros r0 st H Hs.
  - simpl in H. unmonad. inversion H; subst. reflexivity.
  - simpl in *. unmonad.
    destruct (E (ast.NodeStatement s) env st) as [r s'| |]; try discriminate.
    unfold stops in Hs.
    destruct (object.Type_ r) as [t|] eqn:T; [|eauto].
    destruct (String.eqb t object.RETURN_VALUE_OBJ || String.eqb t object.ERROR_OBJ) eqn:B;
      [|eauto].
    inversion H; subst. rewrite T, B in Hs. discriminate.
Qed.

(** So does a program: it stops at the same results as a block. *)
Lemma evalProgram_loop_app pre more env r0 st r1 st1 :
  evalStatements_loop E pre env r0 st = Ok r1 st1 ->
  stops r1 = false ->
  evalProgram_loop E (pre ++ more) env r0 st
  = evalProgram_loop E more env r1 st1.
Proof.
  revert r0 st. induction pre as [|s pre IH]; intros r0 st H Hs.
  - simpl in H. unmonad. inversion H; subst. reflexivity.
  - simpl in *. unmonad.
    destruct (E (ast.NodeStatement s) env st) as [r s'| |]; try discriminate.
    destruct r; simpl in H; eauto; inversion H; subst; discriminate.
Qed.

(** A block hands a [ReturnValue] on as it is. *)
Lemma evalStatements_return pre s rest env st r1 st1 a v st2 :
  evalStatements E pre env st = Ok r1 st1 ->
  stops r1 = false ->
  E (ast.NodeStatement s) env st1 = Ok (object.ReturnValue a v) st2 ->
  evalStatements E (pre ++ s :: rest) env st = Ok (object.ReturnValue a v) st2.
Proof.
  intros H Hs Hr. unfold evalStatements in *.
  rewrite (evalStatements_loop_app _ _ _ _ _ _ _ H Hs).
  simpl. unmonad. rewrite Hr. reflexivity.
Qed.

(** A program unwraps it. *)
Lemma evalProgram_return pre s rest env st r1 st1 a v st2 :
  evalStatements E pre env st = Ok r1 st1 ->
  stops r1 = false ->
  E (ast.NodeStatement s) env st1 = Ok (object.ReturnValue a v) st2 ->
  evalProgram E {| ast.Statements := pre ++ s :: rest |} env st = Ok v st2.
Proof.
  intros H Hs Hr. unfold evalStatements, evalProgram in *. simpl.
  rewrite (evalProgram_loop_app _ _ _ _ _ _ _ H Hs).
  simpl. unmonad. rewrite Hr. reflexivity.
Qed.

(** A call of a function unwraps it as well. *)
Lemma applyFunction_return a0 Parameters Body Env params st a v st2 :
  (new_env ← NewEnclosedEnviroment Env;
   bind_parameters Parameters 0%nat params new_env ;;
   E (ast.NodeBlock Body) new_env) st = Ok (object.ReturnValue a v) st2 ->
  applyFunction E (object.Function a0 Parameters Body Env) params st = Ok v st2.
Proof.
  unfold applyFunction. unmonad. intros H.
  destruct (NewEnclosedEnviroment Env st) as [e s1| |]; try discriminate.
  destruct (bind_parameters Parameters 0%nat params e s1) as [u s2| |]; try discriminate.
  rewrite H. reflexivity.
Qed.

End Sequences.

(** ** C1 *)

(** C1, as stated, fails on the program [return 5;]: its statement
    sequence produces a ReturnValue object, which a bare block hands on,
    but [evalProgram] returns the Integer inside it and not the
    ReturnValue. *)
Lemma C1_program_unwraps_counterexample :
  evalStatements (Eval 3) [ast.ReturnStatement (ast.IntegerLiteral 5)] 0%nat
    {| envs := [object.mkEnviroment ∅ None]; next := 9%nat; printed := [] |}
  = Ok (object.ReturnValue 10%nat (object.Integer 9%nat 5))
       {| envs := [object.mkEnviroment ∅ None]; next := 11%nat; printed := [] |}
  /\ evalProgram (Eval 3)
       {| ast.Statements := [ast.ReturnStatement (ast.IntegerLiteral 5)] |} 0%nat
       {| envs := [object.mkEnviroment ∅ None]; next := 9%nat; printed := [] |}
     = Ok (object.Integer 9%nat 5)
          {| envs := [object.mkEnviroment ∅ None]; next := 11%nat; printed := [] |}
  /\ value_of (run 50 "return 5;") = Some ([], inl (object.Integer 9%nat 5)).
Proof. repeat split; vm_compute; reflexivity. Qed.

(** The amended C1 is proved at the end of the development, where the
    lemmas on the other cases of [Eval] are at hand. *)

(** ** C2 *)

(** C2 (the code departs from it): evaluating a hash literal constructs
    no Hash object.  [Eval] has no case for the node the parser builds
    for it, so every hash-literal node falls out of the type switch: the
    result is nil, the state is untouched, and no key or value expression
    is evaluated.  The source text [{}] parses without error to the empty
    hash literal and evaluates to nil; handing it to [puts] panics, since
    [puts] calls a method on the nil it receives. *)
Theorem C2_hash_literal_is_not_evaluated :
  (forall fuel pairs env st,
      Eval (S fuel) (ast.NodeExpression (ast.HashExpression pairs)) env st
      = Ok object.Nil st)
  /\ (fun r => (fst r, parser.Errors (snd r))) <$> parse 50 "{}"
     = Some ({| ast.Statements := [ast.ExpressionStatement (ast.HashExpression [])] |},
             [])
  /\ value_of (run 50 "{}") = Some ([], inl object.Nil)
  /\ object.Type_ object.Nil <> Some object.HASH_OBJ
  /\ value_of (run 50 "puts({})") = Some ([], inr (Some nil_dereference)).
Proof.
  split; [intros; reflexivity|].
  split; [vm_compute; reflexivity|].
  split; [vm_compute; reflexivity|].
  split; [discriminate | vm_compute; reflexivity].
Qed.

(** ** C3 *)

Section Application.
Variable E : ast.Node -> object.envref -> M object.Object.

(** Binding more parameters than there are arguments runs into the end
    of the argument slice: the first parameter without an argument
    indexes it out of range. *)
Lemma bind_parameters_short ps : forall k args e st,
  (e < length (envs st))%nat ->
  (k <= length args)%nat ->
  (length args < k + length ps)%nat ->
  bind_parameters ps k args e st
  = Panic (index_out_of_range (length args) (length args)).
Proof.
  induction ps as [|p ps IH]; intros k args e st He Hk Hlen; simpl in *.
  - lia.
  - destruct (args !! k) as [arg|] eqn:L.
    + apply lookup_lt_Some in L. unmonad. unfold Set_, object.Set_in.
      destruct (lookup_lt_is_Some_2 (envs st) e He) as [En Le].
      unfold object.envref in *. rewrite Le. apply IH; simpl; [rewrite length_insert; exact He | lia | lia].
    + apply lookup_ge_None in L.
      replace k with (length args) by lia. reflexivity.
Qed.

(** A builtin called with any number of arguments but one is turned
    down by [applyFunction]; the native function is not called. *)
Lemma applyFunction_builtin_arity a Fn params st :
  length params <> 1%nat ->
  applyFunction E (object.Builtin a Fn) params st
  = Ok (object.Error (next st)
          (wrong_number_of_arguments (length params) "1"))
       (allocated st).
Proof.
  intros H. unfold applyFunction.
  destruct (Nat.eqb_spec (length params) 1) as [Heq|_]; [contradiction|].
  reflexivity.
Qed.

End Application.

(** C3 (the code departs from it): a call of a user-defined function with
    fewer arguments than parameters does not succeed.  [applyFunction]
    makes no arity check, and its binding loop reads [params[paramID]] for
    every declared parameter, so the first parameter without an argument
    is a run-time panic (index out of range) before the body is evaluated;
    no parameter is left unbound and no "identifier not found" Error can
    arise. *)
Theorem C3_fewer_arguments_panic :
  forall fuel a Parameters Body Env params st,
    (length params < length Parameters)%nat ->
    applyFunction (Eval fuel) (object.Function a Parameters Body Env) params st
    = Panic (index_out_of_range (length params) (length params)).
Proof.
  intros fuel a Ps Body Env params st H.
  unfold applyFunction, NewEnclosedEnviroment. unmonad.
  rewrite bind_parameters_short; [reflexivity | | lia | simpl; lia].
  simpl. rewrite length_app. simpl. lia.
Qed.

(** C3 at the call [fn(x, y) { x }(1)]. *)
Lemma C3_fewer_arguments_panic_witness :
  (length [object.Integer 10%nat 1]
   < length [ast.mkIdentifier "x"; ast.mkIdentifier "y"])%nat
  /\ applyFunction (Eval 5)
       (object.Function 9%nat [ast.mkIdentifier "x"; ast.mkIdentifier "y"]
          (ast.mkBlock [ast.ExpressionStatement (ast.Ident (ast.mkIdentifier "x"))])
          0%nat)
       [object.Integer 10%nat 1]
       {| envs := [object.mkEnviroment ∅ None]; next := 11%nat; printed := [] |}
     = Panic (index_out_of_range 1 1).
Proof.
  split; [simpl; lia|].
  apply (C3_fewer_arguments_panic 5%nat 9%nat
           [ast.mkIdentifier "x"; ast.mkIdentifier "y"]
           (ast.mkBlock [ast.ExpressionStatement (ast.Ident (ast.mkIdentifier "x"))])
           0%nat [object.Integer 10%nat 1]).
  simpl; lia.
Defined.

(** The same call from its source text: it parses without error and the
    evaluation ends in the panic. *)
Example run_fewer_arguments :
  value_of (run 50 "fn(x, y) { x }(1)")
  = Some ([], inr (Some "runtime error: index out of range [1] with length 1")).
Proof. vm_compute. reflexivity. Qed.

(** ** C4 *)

(** C4 (the code departs from it): [push] called with an Array and an
    element is rejected by [applyFunction], which lets a builtin run only
    with exactly one argument; the body of [push], which would have
    returned the new Array, is not reached.  With one argument the call
    reaches the body, which asks for two. *)
Theorem C4_push_rejected_before_its_body :
  forall fuel a a1 es x st,
    applyFunction (Eval fuel) (object.Builtin a object.fn_push)
                  [object.Array a1 es; x] st
    = Ok (object.Error (next st) "wrong number of arguments. got=2, want=1")
         (allocated st)
    /\ call object.fn_push [object.Array a1 es; x] st
       = Ok (object.Array (next st) (es ++ [x])) (allocated st)
    /\ applyFunction (Eval fuel) (object.Builtin a object.fn_push)
                     [object.Array a1 es] st
       = Ok (object.Error (next st) "wrong number of arguments. got=1, want=2")
            (allocated st).
Proof. intros. repeat split; reflexivity. Qed.

(** The call [push([1], 2)] from its source text. *)
Example run_push :
  value_of (run 50 "push([1], 2)")
  = Some ([], inl (object.Error 12%nat "wrong number of arguments. got=2, want=1")).
Proof. vm_compute. reflexivity. Qed.

(** ** C5 *)

(** C5, as stated, fails: the source text ["a" == "a"] evaluates to an
    Error object, not to the FALSE singleton. *)
Lemma C5_string_equality_counterexample :
  value_of (run 50 (quoted "a" ++ " == " ++ quoted "a"))
  = Some ([], inl (object.Error 11%nat "unknown operator: STRING == STRING"))
  /\ object.same (object.Error 11%nat "unknown operator: STRING == STRING") FALSE
     = false.
Proof. split; vm_compute; reflexivity. Qed.

(** C5 (amended): the infix expression [==] on two String operands is
    dispatched on the operand kinds before the operator is looked at, so
    it enters the dedicated string-infix path, which defines only [+], and
    yields the Error "unknown operator: STRING == STRING"; the identity
    comparison is not reached. *)
Theorem C5_string_equality_is_an_error :
  forall ar sr al sl st,
    evalInfixExpression "==" (object.String_ ar sr) (object.String_ al sl) st
    = evalInfixStringExpression "==" (object.String_ ar sr) (object.String_ al sl) st
    /\ evalInfixExpression "==" (object.String_ ar sr) (object.String_ al sl) st
       = Ok (object.Error (next st) "unknown operator: STRING == STRING")
            (allocated st).
Proof. intros. split; reflexivity. Qed.

(** ** C6 *)

(** C6 (the code departs from it): when the byte the lexer stands on,
    after the white space, is a colon, [NextToken] has no case for it and
    returns the token of kind ILLEGAL, not COLON. *)
Theorem C6_colon_is_illegal :
  forall l,
    lexer.ch (lexer.skipWhitespace l) = ":"%char ->
    lexer.NextToken l
    = ({| token.Type_ := token.ILLEGAL; token.Literal := ":" |},
       lexer.readChar (lexer.skipWhitespace l))
    /\ token.Type_ (fst (lexer.NextToken l)) <> token.COLON.
Proof.
  intros l H. unfold lexer.NextToken. cbv zeta. rewrite H.
  split; [reflexivity | discriminate].
Qed.

(** C6 on the input [ :]. *)
Lemma C6_colon_is_illegal_witness :
  lexer.ch (lexer.skipWhitespace (lexer.New " :")) = ":"%char
  /\ lexer.NextToken (lexer.New " :")
     = ({| token.Type_ := token.ILLEGAL; token.Literal := ":" |},
        lexer.readChar (lexer.skipWhitespace (lexer.New " :"))).
Proof.
  split; [reflexivity|].
  apply (C6_colon_is_illegal (lexer.New " :")). reflexivity.
Defined.

(** The last line of the input of the lexer's own test, [[1, 2]; :],
    for which the test's table expects a COLON token before EOF. *)
Example lexer_test_last_line :
  lexer.tokens 8 (lexer.New "[1, 2]; :")
  = [ token.mkToken token.LSB "["; token.mkToken token.INT "1";
      token.mkToken token.COMMA ","; token.mkToken token.INT "2";
      token.mkToken token.RSB "]"; token.mkToken token.SEMICOLON ";";
      token.mkToken token.ILLEGAL ":"; token.mkToken token.EOF "" ].
Proof. vm_compute. reflexivity. Qed.

(** ** C7 *)

(** The test of [evalIfExpression],
    [res.Type() == BOOLEAN_OBJ && (res == NULL || res == FALSE)],
    holds of an object exactly when the object is the FALSE singleton. *)
Lemma falsy_test_is_FALSE res t :
  object.Type_ res = Some t ->
  String.eqb t object.BOOLEAN_OBJ && (object.same res NULL || object.same res FALSE)
  = object.same res FALSE.
Proof.
  intros H. destruct res; simpl in H; inversion H; subst; reflexivity.
Qed.

(** C7: once the condition of an if-expression has evaluated to an object
    [res] (not an Error, which is handed on), the alternative is selected
    exactly when [res] is the FALSE singleton (NULL when there is no
    alternative); every other object selects the consequence.  The NULL
    singleton is not FALSE, and no object of a kind other than BOOLEAN is:
    they select the consequence. *)
Theorem C7_only_FALSE_is_falsy :
  forall fuel Condition Consequence Alternatives env st res st1,
    Eval fuel (ast.NodeExpression Condition) env st = Ok res st1 ->
    res <> object.Nil ->
    isError res = false ->
    evalIfExpression (Eval fuel) Condition Consequence Alternatives env st
    = (if object.same res FALSE
       then match Alternatives with
            | None => Ok NULL st1
            | Some alt => Eval fuel (ast.NodeBlock alt) env st1
            end
       else Eval fuel (ast.NodeBlock Consequence) env st1)
    /\ object.same NULL FALSE = false
    /\ (object.Type_ res <> Some object.BOOLEAN_OBJ -> object.same res FALSE = false).
Proof.
  intros fuel c cons alt env st res st1 H Hnil Herr.
  split; [|split].
  - unfold evalIfExpression. unmonad. rewrite H, Herr.
    destruct (object.Type_ res) as [t|] eqn:T.
    + unfold TypeOf. rewrite T. unmonad.
      rewrite (falsy_test_is_FALSE res t T).
      destruct (object.same res FALSE); [destruct alt|]; reflexivity.
    + destruct res; simpl in T; try discriminate. contradiction.
  - reflexivity.
  - intros HT. destruct res; try reflexivity. contradiction.
Qed.

(** C7 on [if (if (false) { 0 }) { 1 } else { 2 }]: the condition
    evaluates to the NULL singleton and the consequence is selected. *)
Lemma C7_only_FALSE_is_falsy_witness :
  evalIfExpression (Eval 5)
    (ast.IfExpression (ast.Boolean false)
       (ast.mkBlock [ast.ExpressionStatement (ast.IntegerLiteral 0)]) None)
    (ast.mkBlock [ast.ExpressionStatement (ast.IntegerLiteral 1)])
    (Some (ast.mkBlock [ast.ExpressionStatement (ast.IntegerLiteral 2)]))
    0%nat {| envs := [object.mkEnviroment ∅ None]; next := 9%nat; printed := [] |}
  = Ok (object.Integer 9%nat 1)
       {| envs := [object.mkEnviroment ∅ None]; next := 10%nat; printed := [] |}.
Proof.
  rewrite (proj1 (C7_only_FALSE_is_falsy 5%nat
             (ast.IfExpression (ast.Boolean false)
                (ast.mkBlock [ast.ExpressionStatement (ast.IntegerLiteral 0)]) None)
             (ast.mkBlock [ast.ExpressionStatement (ast.IntegerLiteral 1)])
             (Some (ast.mkBlock [ast.ExpressionStatement (ast.IntegerLiteral 2)]))
             0%nat
             {| envs := [object.mkEnviroment ∅ None]; next := 9%nat; printed := [] |}
             NULL
             {| envs := [object.mkEnviroment ∅ None]; next := 9%nat; printed := [] |}
             ltac:(vm_compute; reflexivity)
             ltac:(discriminate)
             ltac:(reflexivity))).
  vm_compute. reflexivity.
Defined.

(** ** C8 *)

(** An index expression whose two operands evaluate to objects that are
    not Errors is the index operation on these objects. *)
Lemma Eval_IndexExpression fuel LeftExpression Index env st leftexp st1 index st2 :
  Eval fuel (ast.NodeExpression LeftExpression) env st = Ok leftexp st1 ->
  Eval fuel (ast.NodeExpression Index) env st1 = Ok index st2 ->
  isError leftexp = false ->
  isError index = false ->
  Eval (S fuel) (ast.NodeExpression (ast.IndexExpression LeftExpression Index)) env st
  = evalIndexExpression leftexp index st2.
Proof.
  intros HL HI EL EI. simpl. unmonad. rewrite HL, HI, EL, EI. reflexivity.
Qed.

(** C8: on an Array and an Integer index, the index expression yields the
    element at the index when the index is within the array, and the NULL
    singleton, not an Error, when the index is negative or at least the
    length; on a left-hand object of any other kind it yields the Error
    "index operator not supported" with that kind. *)
Theorem C8_array_indexing :
  (forall a Elements ai (n : nat) e st,
      Elements !! n = Some e ->
      evalIndexExpression (object.Array a Elements) (object.Integer ai (Z.of_nat n)) st
      = Ok e st)
  /\ (forall a Elements ai i st,
         i < 0 \/ Z.of_nat (length Elements) <= i ->
         evalIndexExpression (object.Array a Elements) (object.Integer ai i) st
         = Ok NULL st)
  /\ (forall left index t st,
         object.Type_ left = Some t ->
         t <> object.ARRAY_OBJ ->
         evalIndexExpression left index st
         = Ok (object.Error (next st) ("index operator not supported: " ++ t))
              (allocated st)).
Proof.
  split; [|split].
  - intros a es ai n e st H.
    pose proof (lookup_lt_Some _ _ _ H) as Hlt.
    unfold evalIndexExpression, both_types, TypeOf. simpl. unmonad. simpl.
    destruct (Z.ltb_spec (Z.of_nat n) 0) as [?|_]; [lia|].
    destruct (Z.ltb_spec (Z.of_nat (length es) - 1) (Z.of_nat n)) as [?|_]; [lia|].
    simpl. rewrite Nat2Z.id, H. reflexivity.
  - intros a es ai i st H.
    unfold evalIndexExpression, both_types, TypeOf. simpl. unmonad. simpl.
    destruct (Z.ltb_spec i 0) as [?|?]; [reflexivity|].
    destruct (Z.ltb_spec (Z.of_nat (length es) - 1) i) as [?|?]; [reflexivity | lia].
  - intros left index t st HT Hne.
    unfold evalIndexExpression, both_types, TypeOf. rewrite HT. unmonad.
    destruct (String.eqb_spec t object.ARRAY_OBJ) as [?|_]; [contradiction|].
    reflexivity.
Qed.

(** C8 on the array [[1, 2, 3]]: index 1, index 5, index -1, and an index
    into the Integer 7. *)
Lemma C8_array_indexing_witness :
  evalIndexExpression
    (object.Array 12%nat [object.Integer 9%nat 1; object.Integer 10%nat 2; object.Integer 11%nat 3])
    (object.Integer 13%nat (Z.of_nat 1)) {| envs := []; next := 14%nat; printed := [] |}
  = Ok (object.Integer 10%nat 2) {| envs := []; next := 14%nat; printed := [] |}
  /\ evalIndexExpression
       (object.Array 12%nat [object.Integer 9%nat 1; object.Integer 10%nat 2; object.Integer 11%nat 3])
       (object.Integer 13%nat 5) {| envs := []; next := 14%nat; printed := [] |}
     = Ok NULL {| envs := []; next := 14%nat; printed := [] |}
  /\ evalIndexExpression
       (object.Array 12%nat [object.Integer 9%nat 1; object.Integer 10%nat 2; object.Integer 11%nat 3])
       (object.Integer 13%nat (-1)) {| envs := []; next := 14%nat; printed := [] |}
     = Ok NULL {| envs := []; next := 14%nat; printed := [] |}
  /\ evalIndexExpression (object.Integer 9%nat 7) (object.Integer 13%nat 0)
       {| envs := []; next := 14%nat; printed := [] |}
     = Ok (object.Error 14%nat "index operator not supported: INTEGER")
          (allocated {| envs := []; next := 14%nat; printed := [] |}).
Proof.
  destruct C8_array_indexing as (Hin & Hout & Hkind).
  split; [|split; [|split]].
  - apply Hin. reflexivity.
  - apply Hout. right. simpl. lia.
  - apply Hout. left. lia.
  - apply (Hkind (object.Integer 9%nat 7) (object.Integer 13%nat 0) "INTEGER").
    + reflexivity.
    + discriminate.
Defined.

(** The two array examples of the spec from their source text. *)
Example run_array_bounds :
  value_of (run 50 "[1,2,3][5]") = Some ([], inl NULL)
  /\ value_of (run 50 "[1,2,3][1]") = Some ([], inl (object.Integer 10%nat 2)).
Proof. split; vm_compute; reflexivity. Qed.

(** ** C9 *)

Section Precedence.
Import parser token ast.

Ltac unP := unfold mbind, P_bind, mret, P_ret, fmap, P_fmap, get in *.

Lemma binary_operator_facts t q :
  (t, q) ∈ binary_operators ->
  level t = q
  /\ String.eqb t SEMICOLON = false
  /\ (forall pe n, infixParseFns pe n !! t = Some (parseInfixExpression pe))
  /\ LOWEST < q < PREFIX.
Proof.
  unfold binary_operators. intros H.
  repeat (apply elem_of_cons in H; destruct H as [H|H];
          [inversion H; subst;
           split; [reflexivity|]; split; [reflexivity|];
           split; [intros; reflexivity | unfold LOWEST, PREFIX; cbv; split; reflexivity]
          |]).
  apply elem_of_nil in H. contradiction.
Qed.

Lemma ends_stops prec t : LOWEST <= prec -> ends_an_expression t -> stops_at prec t.
Proof.
  intros Hp [H|H]; [left; exact H | right]. unfold level. rewrite H. exact Hp.
Qed.

Lemma binary_stops prec t q : (t, q) ∈ binary_operators -> q <= prec -> stops_at prec t.
Proof.
  intros H Hq. right.
  destruct (binary_operator_facts t q H) as (-> & _). exact Hq.
Qed.

Lemma nextToken_mk lx c pk es tok lx' :
  lexer.NextToken lx = (tok, lx') ->
  nextToken {| l := lx; curToken := c; peakToken := pk; errors := es |}
  = Some (tt, {| l := lx'; curToken := pk; peakToken := tok; errors := es |}).
Proof. intros H. unfold nextToken. cbn [l peakToken errors]. rewrite H. reflexivity. Qed.

Lemma expectPeek_RP lx cur lit es tok lx' :
  lexer.NextToken lx = (tok, lx') ->
  expectPeek RP {| l := lx; curToken := cur;
                   peakToken := {| Type_ := RP; Literal := lit |}; errors := es |}
  = Some (true, {| l := lx'; curToken := {| Type_ := RP; Literal := lit |};
                   peakToken := tok; errors := es |}).
Proof.
  intros H. unfold expectPeek, peekTokenIs. unP. cbn [peakToken Type_].
  change (String.eqb RP RP) with true. cbv iota. unP.
  rewrite (nextToken_mk _ _ _ _ _ _ H). reflexivity.
Qed.

(** The loop of [parseExpression] ends, and returns what it has, at a
    token at which its level stops. *)
Lemma loop_stop pe n k prec left p :
  stops_at prec (Type_ (peakToken p)) ->
  parseExpression_loop pe n k prec left p = Some (left, p).
Proof.
  intros H.
  assert (Hc : negb (String.eqb (Type_ (peakToken p)) SEMICOLON)
               && (prec <? level (Type_ (peakToken p))) = false).
  { destruct H as [H|H].
    - rewrite H. reflexivity.
    - apply andb_false_iff. right. apply Z.ltb_ge. exact H. }
  destruct k; simpl; unfold peekTokenIs, peekPrecedence; unP;
    fold (level (Type_ (peakToken p))); rewrite Hc; reflexivity.
Qed.

(** One turn of the loop at a binary operator that binds tighter than the
    loop's level: the operator and the token after it are read, the right
    operand is parsed at the operator's own level, and the loop goes on
    with the infix expression as its left operand. *)
Lemma loop_step pe n k prec left lx cur t lit es q tokA lxA tokB lxB right pR :
  (t, q) ∈ binary_operators ->
  prec < q ->
  lexer.NextToken lx = (tokA, lxA) ->
  lexer.NextToken lxA = (tokB, lxB) ->
  pe q {| l := lxB; curToken := tokA; peakToken := tokB; errors := es |}
  = Some (right, pR) ->
  parseExpression_loop pe n (S k) prec left
    {| l := lx; curToken := cur; peakToken := {| Type_ := t; Literal := lit |};
       errors := es |}
  = parseExpression_loop pe n k prec (InfixExpression lit left right) pR.
Proof.
  intros Hb Hlt HA HB Hr.
  destruct (binary_operator_facts t q Hb) as (Hq & Hs & Hi & _).
  assert (Hc : negb (String.eqb t SEMICOLON) && (prec <? level t) = true).
  { rewrite Hs, Hq. apply Z.ltb_lt in Hlt. rewrite Hlt. reflexivity. }
  simpl. unfold peekTokenIs, peekPrecedence. unP. cbn [peakToken Type_].
  fold (level t).
  rewrite Hc, Hi. unP.
  rewrite (nextToken_mk _ _ _ _ _ _ HA).
  unfold parseInfixExpression, curPrecedence. unP. cbn [curToken Type_ Literal].
  fold (level t). rewrite Hq.
  rewrite (nextToken_mk _ _ _ _ _ _ HB).
  rewrite Hr. reflexivity.
Qed.

Lemma parse_INT f prec lx s pk es v :
  strconv.ParseInt s = Some v ->
  parseExpression (S f) prec
    {| l := lx; curToken := INT_token s; peakToken := pk; errors := es |}
  = parseExpression_loop (parseExpression f) f f prec (IntegerLiteral v)
      {| l := lx; curToken := INT_token s; peakToken := pk; errors := es |}.
Proof.
  intros Hv.
  change (parseExpression (S f) prec)
    with (parseExpression_body (parseExpression f) (parseStatement f) f prec).
  unfold parseExpression_body. unP. cbn [curToken]. unfold INT_token. cbn [Type_].
  replace (prefixParseFns (parseExpression f) (parseStatement f) f !! INT)
    with (Some parseIntegerLiteral) by reflexivity.
  unfold parseIntegerLiteral. unP. cbn [curToken Literal].
  rewrite Hv. reflexivity.
Qed.

(** An integer literal followed by a token at which the level stops. *)
Lemma parse_atom f prec lx s pk es v :
  strconv.ParseInt s = Some v ->
  stops_at prec (Type_ pk) ->
  parseExpression (S f) prec
    {| l := lx; curToken := INT_token s; peakToken := pk; errors := es |}
  = Some (IntegerLiteral v,
          {| l := lx; curToken := INT_token s; peakToken := pk; errors := es |}).
Proof.
  intros Hv Hs. rewrite (parse_INT f prec lx s pk es v Hv). apply loop_stop, Hs.
Qed.

(** [a op1 b op2 c]: the operator of the higher level takes its two
    neighbours first, and of two operators of the same level the left
    one does. *)
Lemma two_binary_operators fuel es lx0 lx1 lx2 lx3 lx4 sa a sb b sc c
      t1 lit1 q1 t2 lit2 q2 tend :
  (t1, q1) ∈ binary_operators ->
  (t2, q2) ∈ binary_operators ->
  strconv.ParseInt sa = Some a ->
  strconv.ParseInt sb = Some b ->
  strconv.ParseInt sc = Some c ->
  ends_an_expression (Type_ tend) ->
  lexer.NextToken lx0 = (INT_token sb, lx1) ->
  lexer.NextToken lx1 = ({| Type_ := t2; Literal := lit2 |}, lx2) ->
  lexer.NextToken lx2 = (INT_token sc, lx3) ->
  lexer.NextToken lx3 = (tend, lx4) ->
  parseExpression (S (S (S fuel))) LOWEST
    {| l := lx0; curToken := INT_token sa;
       peakToken := {| Type_ := t1; Literal := lit1 |}; errors := es |}
  = Some (if q1 <? q2
          then InfixExpression lit1 (IntegerLiteral a)
                 (InfixExpression lit2 (IntegerLiteral b) (IntegerLiteral c))
          else InfixExpression lit2
                 (InfixExpression lit1 (IntegerLiteral a) (IntegerLiteral b))
                 (IntegerLiteral c),
          {| l := lx4; curToken := INT_token sc; peakToken := tend; errors := es |}).
Proof.
  intros H1 H2 Ha Hb Hc Hend T0 T1 T2 T3.
  destruct (binary_operator_facts t1 q1 H1) as (_ & _ & _ & Hq1 & _).
  destruct (binary_operator_facts t2 q2 H2) as (_ & _ & _ & Hq2 & _).
  rewrite (parse_INT _ _ _ sa _ _ a Ha).
  destruct (Z.ltb_spec q1 q2) as [Hlt|Hge].
  - (* the second operator binds tighter: it is parsed inside the right operand *)
    rewrite (loop_step _ _ _ _ _ _ _ t1 lit1 _ q1 (INT_token sb) lx1
               {| Type_ := t2; Literal := lit2 |} lx2
               (InfixExpression lit2 (IntegerLiteral b) (IntegerLiteral c))
               {| l := lx4; curToken := INT_token sc; peakToken := tend; errors := es |}
               H1 Hq1 T0 T1).
    + apply loop_stop. simpl. apply ends_stops; [reflexivity | exact Hend].
    + rewrite (parse_INT _ _ _ sb _ _ b Hb).
      rewrite (loop_step _ _ _ _ _ _ _ t2 lit2 _ q2 (INT_token sc) lx3 tend lx4
                 (IntegerLiteral c)
                 {| l := lx4; curToken := INT_token sc; peakToken := tend;
                    errors := es |}
                 H2 Hlt T2 T3).
      * apply loop_stop. simpl. apply ends_stops; [lia | exact Hend].
      * apply (parse_atom _ _ _ sc _ _ c Hc).
        simpl. apply ends_stops; [lia | exact Hend].
  - (* the first operator binds at least as tight: its right operand ends at the second *)
    rewrite (loop_step _ _ _ _ _ _ _ t1 lit1 _ q1 (INT_token sb) lx1
               {| Type_ := t2; Literal := lit2 |} lx2
               (IntegerLiteral b)
               {| l := lx2; curToken := INT_token sb;
                  peakToken := {| Type_ := t2; Literal := lit2 |}; errors := es |}
               H1 Hq1 T0 T1).
    + rewrite (loop_step _ _ _ _ _ _ _ t2 lit2 _ q2 (INT_token sc) lx3 tend lx4
                 (IntegerLiteral c)
                 {| l := lx4; curToken := INT_token sc; peakToken := tend;
                    errors := es |}
                 H2 Hq2 T2 T3).
      * apply loop_stop. simpl. apply ends_stops; [reflexivity | exact Hend].
      * apply (parse_atom _ _ _ sc _ _ c Hc).
        simpl. apply ends_stops; [lia | exact Hend].
    + apply (parse_atom _ _ _ sb _ _ b Hb).
      simpl. apply (binary_stops q1 t2 q2 H2 Hge).
Qed.

(** [-a op b]: the prefix minus takes the literal before any binary
    operator does. *)
Lemma prefix_minus_binds_tightest fuel es lx0 lx1 lx2 lx3 mlit sa a t lit q sb b tend :
  (t, q) ∈ binary_operators ->
  strconv.ParseInt sa = Some a ->
  strconv.ParseInt sb = Some b ->
  ends_an_expression (Type_ tend) ->
  lexer.NextToken lx0 = ({| Type_ := t; Literal := lit |}, lx1) ->
  lexer.NextToken lx1 = (INT_token sb, lx2) ->
  lexer.NextToken lx2 = (tend, lx3) ->
  parseExpression (S (S fuel)) LOWEST
    {| l := lx0; curToken := {| Type_ := MINUS; Literal := mlit |};
       peakToken := INT_token sa; errors := es |}
  = Some (InfixExpression lit (PrefixExpression mlit (IntegerLiteral a))
            (IntegerLiteral b),
          {| l := lx3; curToken := INT_token sb; peakToken := tend; errors := es |}).
Proof.
  intros H1 Ha Hb Hend T0 T1 T2.
  destruct (binary_operator_facts t q H1) as (_ & _ & _ & Hq & Hq').
  change (parseExpression (S (S fuel)) LOWEST)
    with (parseExpression_body (parseExpression (S fuel)) (parseStatement (S fuel))
            (S fuel) LOWEST).
  unfold parseExpression_body. unP. simpl curToken. simpl Type_.
  replace (prefixParseFns (parseExpression (S fuel)) (parseStatement (S fuel)) (S fuel)
             !! MINUS)
    with (Some (parsePrefixExpression (parseExpression (S fuel)))) by reflexivity.
  unfold parsePrefixExpression. unP. simpl curToken. simpl Literal.
  rewrite (nextToken_mk _ _ _ _ _ _ T0).
  rewrite (parse_atom fuel PREFIX _ sa _ _ a Ha)
    by (simpl; apply (binary_stops PREFIX t q H1); lia).
  rewrite (loop_step _ _ _ _ _ _ _ t lit _ q (INT_token sb) lx2 tend lx3
             (IntegerLiteral b)
             {| l := lx3; curToken := INT_token sb; peakToken := tend; errors := es |}
             H1 Hq T1 T2).
  - apply loop_stop. simpl. apply ends_stops; [reflexivity | exact Hend].
  - apply (parse_atom _ _ _ sb _ _ b Hb).
    simpl. apply ends_stops; [lia | exact Hend].
Qed.

(** [(a op1 b) op2 c]: what stands in parentheses is one operand,
    whatever the levels of the two operators. *)
Lemma parentheses_group fuel es lx0 lx1 lx2 lx3 lx4 lx5 lx6 llit rlit sa a sb b sc c
      t1 lit1 q1 t2 lit2 q2 tend :
  (t1, q1) ∈ binary_operators ->
  (t2, q2) ∈ binary_operators ->
  strconv.ParseInt sa = Some a ->
  strconv.ParseInt sb = Some b ->
  strconv.ParseInt sc = Some c ->
  ends_an_expression (Type_ tend) ->
  lexer.NextToken lx0 = ({| Type_ := t1; Literal := lit1 |}, lx1) ->
  lexer.NextToken lx1 = (INT_token sb, lx2) ->
  lexer.NextToken lx2 = ({| Type_ := RP; Literal := rlit |}, lx3) ->
  lexer.NextToken lx3 = ({| Type_ := t2; Literal := lit2 |}, lx4) ->
  lexer.NextToken lx4 = (INT_token sc, lx5) ->
  lexer.NextToken lx5 = (tend, lx6) ->
  parseExpression (S (S (S fuel))) LOWEST
    {| l := lx0; curToken := {| Type_ := LP; Literal := llit |};
       peakToken := INT_token sa; errors := es |}
  = Some (InfixExpression lit2
            (InfixExpression lit1 (IntegerLiteral a) (IntegerLiteral b))
            (IntegerLiteral c),
          {| l := lx6; curToken := INT_token sc; peakToken := tend; errors := es |}).
Proof.
  intros H1 H2 Ha Hb Hc Hend T0 T1 T2 T3 T4 T5.
  destruct (binary_operator_facts t1 q1 H1) as (_ & _ & _ & Hq1 & _).
  destruct (binary_operator_facts t2 q2 H2) as (_ & _ & _ & Hq2 & _).
  change (parseExpression (S (S (S fuel))) LOWEST)
    with (parseExpression_body (parseExpression (S (S fuel)))
            (parseStatement (S (S fuel))) (S (S fuel)) LOWEST).
  unfold parseExpression_body. unP. simpl curToken. simpl Type_.
  replace (prefixParseFns (parseExpression (S (S fuel))) (parseStatement (S (S fuel)))
             (S (S fuel)) !! LP)
    with (Some (parseGroupExpressions (parseExpression (S (S fuel))))) by reflexivity.
  unfold parseGroupExpressions. unP.
  rewrite (nextToken_mk _ _ _ _ _ _ T0).
  rewrite (parse_INT _ _ _ sa _ _ a Ha).
  rewrite (loop_step _ _ _ _ _ _ _ t1 lit1 _ q1 (INT_token sb) lx2
             {| Type_ := RP; Literal := rlit |} lx3
             (IntegerLiteral b)
             {| l := lx3; curToken := INT_token sb;
                peakToken := {| Type_ := RP; Literal := rlit |}; errors := es |}
             H1 Hq1 T1 T2).
  - rewrite loop_stop
      by (right; cbn [peakToken Type_]; change (level RP) with LOWEST; lia).
    rewrite (expectPeek_RP _ _ _ _ _ _ T3). cbn [negb].
    rewrite (loop_step _ _ _ _ _ _ _ t2 lit2 _ q2 (INT_token sc) lx5 tend lx6
               (IntegerLiteral c)
               {| l := lx6; curToken := INT_token sc; peakToken := tend; errors := es |}
               H2 Hq2 T4 T5).
    + apply loop_stop. simpl. apply ends_stops; [reflexivity | exact Hend].
    + apply (parse_atom _ _ _ sc _ _ c Hc).
      simpl. apply ends_stops; [lia | exact Hend].
  - apply (parse_atom _ _ _ sb _ _ b Hb).
    right. cbn [Type_]. change (level RP) with LOWEST. lia.
Qed.

End Precedence.

(** C9: operator precedence is resolved by the levels of the precedence
    table.  For every token stream [a op1 b op2 c] of integer literals
    and binary operators, followed by a token that ends an expression,
    [parseExpression] groups [b] with the operator of the higher level,
    and with the left one when the levels are equal; so [*] and [/] bind
    tighter than [+] and [-], which bind tighter than the comparisons.
    A prefix minus takes its literal before any binary operator after it
    does, and an expression in parentheses is one operand whatever the
    operators around it.  The parser is left at the last literal, with
    no error added.  The trees evaluate accordingly: the three source
    texts of the claim parse to the trees written below and evaluate to
    the Integers 5, 7 and 9, and the same operators in the other order,
    [2 * 3 + 1], and twice the same level, [1 - 2 - 3], give 7 and -4. *)
Theorem C9_operator_precedence :
  (forall fuel es lx0 lx1 lx2 lx3 lx4 sa a sb b sc c t1 lit1 q1 t2 lit2 q2 tend,
      (t1, q1) ∈ binary_operators ->
      (t2, q2) ∈ binary_operators ->
      strconv.ParseInt sa = Some a ->
      strconv.ParseInt sb = Some b ->
      strconv.ParseInt sc = Some c ->
      ends_an_expression (token.Type_ tend) ->
      lexer.NextToken lx0 = (INT_token sb, lx1) ->
      lexer.NextToken lx1 = ({| token.Type_ := t2; token.Literal := lit2 |}, lx2) ->
      lexer.NextToken lx2 = (INT_token sc, lx3) ->
      lexer.NextToken lx3 = (tend, lx4) ->
      parser.parseExpression (S (S (S fuel))) parser.LOWEST
        {| parser.l := lx0; parser.curToken := INT_token sa;
           parser.peakToken := {| token.Type_ := t1; token.Literal := lit1 |};
           parser.errors := es |}
      = Some (if q1 <? q2
              then ast.InfixExpression lit1 (ast.IntegerLiteral a)
                     (ast.InfixExpression lit2 (ast.IntegerLiteral b)
                        (ast.IntegerLiteral c))
              else ast.InfixExpression lit2
                     (ast.InfixExpression lit1 (ast.IntegerLiteral a)
                        (ast.IntegerLiteral b))
                     (ast.IntegerLiteral c),
              {| parser.l := lx4; parser.curToken := INT_token sc;
                 parser.peakToken := tend; parser.errors := es |}))
  /\ (forall fuel es lx0 lx1 lx2 lx3 mlit sa a t lit q sb b tend,
         (t, q) ∈ binary_operators ->
         strconv.ParseInt sa = Some a ->
         strconv.ParseInt sb = Some b ->
         ends_an_expression (token.Type_ tend) ->
         lexer.NextToken lx0 = ({| token.Type_ := t; token.Literal := lit |}, lx1) ->
         lexer.NextToken lx1 = (INT_token sb, lx2) ->
         lexer.NextToken lx2 = (tend, lx3) ->
         parser.parseExpression (S (S fuel)) parser.LOWEST
           {| parser.l := lx0;
              parser.curToken := {| token.Type_ := token.MINUS; token.Literal := mlit |};
              parser.peakToken := INT_token sa; parser.errors := es |}
         = Some (ast.InfixExpression lit
                   (ast.PrefixExpression mlit (ast.IntegerLiteral a))
                   (ast.IntegerLiteral b),
                 {| parser.l := lx3; parser.curToken := INT_token sb;
                    parser.peakToken := tend; parser.errors := es |}))
  /\ (forall fuel es lx0 lx1 lx2 lx3 lx4 lx5 lx6 llit rlit sa a sb b sc c
             t1 lit1 q1 t2 lit2 q2 tend,
         (t1, q1) ∈ binary_operators ->
         (t2, q2) ∈ binary_operators ->
         strconv.ParseInt sa = Some a ->
         strconv.ParseInt sb = Some b ->
         strconv.ParseInt sc = Some c ->
         ends_an_expression (token.Type_ tend) ->
         lexer.NextToken lx0 = ({| token.Type_ := t1; token.Literal := lit1 |}, lx1) ->
         lexer.NextToken lx1 = (INT_token sb, lx2) ->
         lexer.NextToken lx2 = ({| token.Type_ := token.RP; token.Literal := rlit |}, lx3) ->
         lexer.NextToken lx3 = ({| token.Type_ := t2; token.Literal := lit2 |}, lx4) ->
         lexer.NextToken lx4 = (INT_token sc, lx5) ->
         lexer.NextToken lx5 = (tend, lx6) ->
         parser.parseExpression (S (S (S fuel))) parser.LOWEST
           {| parser.l := lx0;
              parser.curToken := {| token.Type_ := token.LP; token.Literal := llit |};
              parser.peakToken := INT_token sa; parser.errors := es |}
         = Some (ast.InfixExpression lit2
                   (ast.InfixExpression lit1 (ast.IntegerLiteral a)
                      (ast.IntegerLiteral b))
                   (ast.IntegerLiteral c),
                 {| parser.l := lx6; parser.curToken := INT_token sc;
                    parser.peakToken := tend; parser.errors := es |}))
  /\ (forall fuel a b c env st,
         (exists r st',
             Eval (S (S (S fuel)))
               (ast.NodeExpression
                  (ast.InfixExpression "+" (ast.IntegerLiteral a)
                     (ast.InfixExpression "*" (ast.IntegerLiteral b)
                        (ast.IntegerLiteral c)))) env st
             = Ok (object.Integer r (wrap64 (wrap64 (c * b) + a))) st')
         /\ (exists r st',
                Eval (S (S (S fuel)))
                  (ast.NodeExpression
                     (ast.InfixExpression "*"
                        (ast.InfixExpression "+" (ast.IntegerLiteral a)
                           (ast.IntegerLiteral b))
                        (ast.IntegerLiteral c))) env st
                = Ok (object.Integer r (wrap64 (c * wrap64 (b + a)))) st'))
  /\ (fst <$> parse 50 "-1 + 2 * 3"
      = Some {| ast.Statements :=
                  [ast.ExpressionStatement
                     (ast.InfixExpression "+"
                        (ast.PrefixExpression "-" (ast.IntegerLiteral 1))
                        (ast.InfixExpression "*" (ast.IntegerLiteral 2)
                           (ast.IntegerLiteral 3)))] |}
      /\ exists a, value_of (run 50 "-1 + 2 * 3") = Some ([], inl (object.Integer a 5)))
  /\ (fst <$> parse 50 "1 + 2 * 3"
      = Some {| ast.Statements :=
                  [ast.ExpressionStatement
                     (ast.InfixExpression "+" (ast.IntegerLiteral 1)
                        (ast.InfixExpression "*" (ast.IntegerLiteral 2)
                           (ast.IntegerLiteral 3)))] |}
      /\ exists a, value_of (run 50 "1 + 2 * 3") = Some ([], inl (object.Integer a 7)))
  /\ (fst <$> parse 50 "(1 + 2) * 3"
      = Some {| ast.Statements :=
                  [ast.ExpressionStatement
                     (ast.InfixExpression "*"
                        (ast.InfixExpression "+" (ast.IntegerLiteral 1)
                           (ast.IntegerLiteral 2))
                        (ast.IntegerLiteral 3))] |}
      /\ exists a, value_of (run 50 "(1 + 2) * 3") = Some ([], inl (object.Integer a 9)))
  /\ (fst <$> parse 50 "2 * 3 + 1"
      = Some {| ast.Statements :=
                  [ast.ExpressionStatement
                     (ast.InfixExpression "+"
                        (ast.InfixExpression "*" (ast.IntegerLiteral 2)
                           (ast.IntegerLiteral 3))
                        (ast.IntegerLiteral 1))] |}
      /\ exists a, value_of (run 50 "2 * 3 + 1") = Some ([], inl (object.Integer a 7)))
  /\ (fst <$> parse 50 "1 - 2 - 3"
      = Some {| ast.Statements :=
                  [ast.ExpressionStatement
                     (ast.InfixExpression "-"
                        (ast.InfixExpression "-" (ast.IntegerLiteral 1)
                           (ast.IntegerLiteral 2))
                        (ast.IntegerLiteral 3))] |}
      /\ exists a, value_of (run 50 "1 - 2 - 3") = Some ([], inl (object.Integer a (-4)))).
Proof.
  split; [exact two_binary_operators|].
  split; [exact prefix_minus_binds_tightest|].
  split; [exact parentheses_group|].
  split.
  { intros fuel a b c env st. split; eexists; eexists; simpl; unmonad; reflexivity. }
  repeat split; try (vm_compute; reflexivity);
    eexists; vm_compute; reflexivity.
Qed.

Lemma C9_operator_precedence_witness :
  (token.STAR, parser.PRODUCT) ∈ binary_operators
  /\ (token.PLUS, parser.SUM) ∈ binary_operators
  /\ ends_an_expression token.EOF
  /\ exists p p',
      parser.New (lexer.New "2 * 3 + 1") = Some p
      /\ parser.parseExpression 3 parser.LOWEST p
         = Some (ast.InfixExpression "+"
                   (ast.InfixExpression "*" (ast.IntegerLiteral 2)
                      (ast.IntegerLiteral 3))
                   (ast.IntegerLiteral 1), p').
Proof.
  assert (H1 : (token.STAR, parser.PRODUCT) ∈ binary_operators)
    by (unfold binary_operators; repeat constructor).
  assert (H2 : (token.PLUS, parser.SUM) ∈ binary_operators)
    by (unfold binary_operators; repeat constructor).
  assert (H3 : ends_an_expression token.EOF) by (right; reflexivity).
  split; [exact H1|]. split; [exact H2|]. split; [exact H3|].
  destruct C9_operator_precedence as [HA _].
  pose (lx0 := snd (lexer.NextToken (snd (lexer.NextToken (lexer.New "2 * 3 + 1"))))).
  exists {| parser.l := lx0; parser.curToken := INT_token "2";
            parser.peakToken := {| token.Type_ := token.STAR; token.Literal := "*" |};
            parser.errors := [] |}.
  eexists. split.
  - vm_compute. reflexivity.
  - apply (HA 0%nat [] lx0
              (snd (lexer.NextToken lx0))
              (snd (lexer.NextToken (snd (lexer.NextToken lx0))))
              (snd (lexer.NextToken (snd (lexer.NextToken (snd (lexer.NextToken lx0))))))
              (snd (lexer.NextToken (snd (lexer.NextToken (snd (lexer.NextToken
                     (snd (lexer.NextToken lx0))))))))
              "2" 2 "3" 3 "1" 1
              token.STAR "*" parser.PRODUCT token.PLUS "+" parser.SUM
              {| token.Type_ := token.EOF; token.Literal := "" |}
              H1 H2);
      try exact H3; vm_compute; reflexivity.
Defined.

(** ** C10 *)

(** C10: the infix [/] on two Integers is not guarded against a zero
    divisor.  With a zero right operand the evaluator produces no object,
    neither an Error nor any other: the host division panics.  With any
    other right operand it produces the Integer of the truncating
    quotient, wrapped to 64 bits. *)
Theorem C10_integer_division_unguarded :
  forall ar right_val al left_val st,
    evalInfixExpression "/" (object.Integer ar right_val) (object.Integer al left_val) st
    = (if right_val =? 0
       then Panic divide_by_zero
       else Ok (object.Integer (next st) (wrap64 (left_val ÷ right_val)))
               (allocated st))
    /\ evalInfixExpression "/" (object.Integer ar 0) (object.Integer al left_val) st
       = Panic divide_by_zero.
Proof.
  intros. split.
  - unfold evalInfixExpression, both_types, TypeOf. simpl. unmonad. simpl.
    destruct (right_val =? 0); reflexivity.
  - reflexivity.
Qed.

(** Division from source text: [7 / 2] truncates, [1 / 0] panics. *)
Example run_division :
  value_of (run 50 "7 / 2") = Some ([], inl (object.Integer 11%nat 3))
  /\ value_of (run 50 "1 / 0") = Some ([], inr (Some divide_by_zero)).
Proof. split; vm_compute; reflexivity. Qed.

(* ===================================================================== *)
(** * Further properties of the evaluator *)
(* ===================================================================== *)

(** What is left of a result once a ReturnValue has been unwrapped. *)
Definition unwrap (r : object.Object) : object.Object :=
  match r with
  | object.ReturnValue _ Value => Value
  | _ => r
  end.

(** The same on the outcome of a call. *)
Definition unwrapped (o : outcome object.Object) : outcome object.Object :=
  match o with
  | Ok r s => Ok (unwrap r) s
  | Panic msg => Panic msg
  | OutOfFuel => OutOfFuel
  end.

Definition not_error (o : object.Object) : Prop := isError o = false.

Section MoreSequences.
Variable E : ast.Node -> object.envref -> M object.Object.

Lemma evalProgram_loop_unwraps stmts : forall env r0 st,
  unwrap r0 = r0 ->
  evalProgram_loop E stmts env r0 st
  = unwrapped (evalStatements_loop E stmts env r0 st).
Proof.
  induction stmts as [|s stmts IH]; intros env r0 st H0; simpl.
  - unmonad. simpl. rewrite H0. reflexivity.
  - unmonad. destruct (E (ast.NodeStatement s) env st) as [r s'| |]; try reflexivity.
    destruct r; simpl; try (apply IH; reflexivity); reflexivity.
Qed.

(** A statement that evaluates to an Error ends a block and a program
    alike, with that Error. *)
Lemma sequence_stops_at_error pre s rest env st r1 st1 a msg st2 :
  evalStatements E pre env st = Ok r1 st1 ->
  stops r1 = false ->
  E (ast.NodeStatement s) env st1 = Ok (object.Error a msg) st2 ->
  evalStatements E (pre ++ s :: rest) env st = Ok (object.Error a msg) st2
  /\ evalProgram E {| ast.Statements := pre ++ s :: rest |} env st
     = Ok (object.Error a msg) st2.
Proof.
  intros H Hs He. unfold evalStatements, evalProgram in *. simpl.
  rewrite (evalStatements_loop_app _ _ _ _ _ _ _ _ H Hs).
  rewrite (evalProgram_loop_app _ _ _ _ _ _ _ _ H Hs).
  simpl. unmonad. rewrite He. split; reflexivity.
Qed.

(** The expressions of a list evaluated from left to right, each in the
    state the one before it left, none to an Error: the objects they
    evaluate to, in order, and the state after the last. *)
Inductive evaluated_in_order (env : object.envref)
  : list ast.Expression -> State -> list object.Object -> State -> Prop :=
| in_order_nil st : evaluated_in_order env [] st [] st
| in_order_cons x exps st v st1 vs st2 :
    E (ast.NodeExpression x) env st = Ok v st1 ->
    isError v = false ->
    evaluated_in_order env exps st1 vs st2 ->
    evaluated_in_order env (x :: exps) st (v :: vs) st2.

(** The first expression of a list that evaluates to an Error: the ones
    before it evaluate in order to objects that are no Errors, and it
    evaluates to the Error [e] in the state they leave. *)
Definition first_error (env : object.envref) (exps : list ast.Expression)
    (st : State) (e : object.Object) (st' : State) : Prop :=
  exists pre x rest vs st1,
    exps = (pre ++ x :: rest)%list
    /\ evaluated_in_order env pre st vs st1
    /\ E (ast.NodeExpression x) env st1 = Ok e st'
    /\ isError e = true.

Lemma evaluated_in_order_length env exps st vs st' :
  evaluated_in_order env exps st vs st' ->
  length vs = length exps /\ Forall not_error vs.
Proof.
  induction 1 as [|x exps st v st1 vs st2 Hx Hv _ [IHl IHf]]; simpl.
  - split; [reflexivity | constructor].
  - split; [congruence | constructor; assumption].
Qed.

(** What the loop of [evalExpressions] returns, read backwards: either it
    has appended the values of all expressions, in order, to what it
    started with, or it returns the first Error alone. *)
Lemma evalExpressions_loop_in_order exps : forall env res st out st',
  evalExpressions_loop E exps env res st = Ok out st' ->
  (exists vs, out = (res ++ vs)%list /\ evaluated_in_order env exps st vs st')
  \/ (exists e, out = [e] /\ first_error env exps st e st').
Proof.
  induction exps as [|x exps IH]; intros env res st out st' H; simpl in H.
  - unmonad. inversion H; subst. left. exists []. rewrite app_nil_r.
    split; [reflexivity | constructor].
  - unmonad. destruct (E (ast.NodeExpression x) env st) as [r s1| |] eqn:Ex;
      try discriminate.
    destruct (isError r) eqn:Er.
    + inversion H; subst. right. exists r. split; [reflexivity|].
      exists [], x, exps, [], st. repeat split; try assumption. constructor.
    + apply IH in H. destruct H as [(vs & -> & Hvs)|(e & -> & Hfe)].
      * left. exists (r :: vs). rewrite <- app_assoc. split; [reflexivity|].
        econstructor; eassumption.
      * right. exists e. split; [reflexivity|].
        destruct Hfe as (pre & y & rest & vs & st1 & -> & Hpre & Hy & He).
        exists (x :: pre), y, rest, (r :: vs), st1.
        repeat split; try assumption. econstructor; eassumption.
Qed.

(** And read forwards. *)
Lemma evalExpressions_loop_values env exps st vs st' :
  evaluated_in_order env exps st vs st' ->
  forall res, evalExpressions_loop E exps env res st = Ok (res ++ vs)%list st'.
Proof.
  induction 1 as [|x exps st v st1 vs st2 Hx Hv _ IH]; intros res; simpl.
  - unmonad. rewrite app_nil_r. reflexivity.
  - unmonad. rewrite Hx, Hv, IH, <- app_assoc. reflexivity.
Qed.

Lemma evalExpressions_loop_first_error env exps st e st' :
  first_error env exps st e st' ->
  forall res, evalExpressions_loop E exps env res st = Ok [e] st'.
Proof.
  intros (pre & x & rest & vs & st1 & -> & Hpre & Hx & He).
  induction Hpre as [|y exps st v st1 vs st2 Hy Hv _ IH]; intros res; simpl.
  - unmonad. rewrite Hx, He. reflexivity.
  - unmonad. rewrite Hy, Hv. apply IH; assumption.
Qed.

End MoreSequences.

(** X1: the top-level program returns what the bare block of the same
    statements returns, with a ReturnValue unwrapped once: the two loops
    stop at the same statement and leave the same state. *)
Theorem evalProgram_is_evalStatements_unwrapped :
  forall fuel stmts env st,
    evalProgram (Eval fuel) {| ast.Statements := stmts |} env st
    = unwrapped (evalStatements (Eval fuel) stmts env st)
    /\ Eval (S fuel) (ast.NodeProgram {| ast.Statements := stmts |}) env st
       = unwrapped (Eval (S fuel) (ast.NodeBlock (ast.mkBlock stmts)) env st).
Proof.
  intros. split; apply evalProgram_loop_unwraps; reflexivity.
Qed.

(** X2: when the statements before it run through and a statement evaluates
    to an Error object, the block and the program both return that Error
    and evaluate none of the statements after it (the state is the one
    the failing statement left). *)
Theorem error_ends_statement_sequence :
  forall fuel pre s rest env st r1 st1 a msg st2,
    evalStatements (Eval fuel) pre env st = Ok r1 st1 ->
    stops r1 = false ->
    Eval fuel (ast.NodeStatement s) env st1 = Ok (object.Error a msg) st2 ->
    evalStatements (Eval fuel) (pre ++ s :: rest) env st = Ok (object.Error a msg) st2
    /\ evalProgram (Eval fuel) {| ast.Statements := pre ++ s :: rest |} env st
       = Ok (object.Error a msg) st2.
Proof. intros. eapply sequence_stops_at_error; eassumption. Qed.

(** On [1; foobar; puts(2)]: the unbound identifier ends the sequence and
    nothing is printed. *)
Lemma error_ends_statement_sequence_witness :
  evalStatements (Eval 4)
    ([ast.ExpressionStatement (ast.IntegerLiteral 1)]
     ++ ast.ExpressionStatement (ast.Ident (ast.mkIdentifier "foobar"))
     :: [ast.ExpressionStatement
           (ast.CallExpression (ast.Ident (ast.mkIdentifier "puts"))
              [ast.IntegerLiteral 2])]) 0%nat
    {| envs := [object.mkEnviroment ∅ None]; next := 9%nat; printed := [] |}
  = Ok (object.Error 10%nat "identifier not found: foobar")
       {| envs := [object.mkEnviroment ∅ None]; next := 11%nat; printed := [] |}.
Proof.
  apply (error_ends_statement_sequence 4%nat
           [ast.ExpressionStatement (ast.IntegerLiteral 1)]
           (ast.ExpressionStatement (ast.Ident (ast.mkIdentifier "foobar")))
           [ast.ExpressionStatement
              (ast.CallExpression (ast.Ident (ast.mkIdentifier "puts"))
                 [ast.IntegerLiteral 2])] 0%nat
           {| envs := [object.mkEnviroment ∅ None]; next := 9%nat; printed := [] |}
           (object.Integer 9%nat 1)
           {| envs := [object.mkEnviroment ∅ None]; next := 10%nat; printed := [] |});
    vm_compute; reflexivity.
Defined.

(** X3: [evalExpressions] returns either the objects its expressions
    evaluate to, one per expression and in their order, each evaluated in
    the state the one before left and none of them an Error; or the
    one-element list of the first Error an expression evaluated to, in
    the state that expression left, the expressions after it not being
    evaluated.  Both ways round: what it returns is one of the two, and
    each of the two is what it returns. *)
Theorem evalExpressions_all_or_one_error :
  forall fuel exps env st,
    (forall out st',
        evalExpressions (Eval fuel) exps env st = Ok out st' ->
        (evaluated_in_order (Eval fuel) env exps st out st'
         /\ length out = length exps /\ Forall not_error out)
        \/ (exists e, out = [e] /\ isError e = true
                      /\ first_error (Eval fuel) env exps st e st'))
    /\ (forall vs st',
           evaluated_in_order (Eval fuel) env exps st vs st' ->
           evalExpressions (Eval fuel) exps env st = Ok vs st')
    /\ (forall e st',
           first_error (Eval fuel) env exps st e st' ->
           evalExpressions (Eval fuel) exps env st = Ok [e] st').
Proof.
  intros fuel exps env st. split; [|split].
  - intros out st' H.
    apply (evalExpressions_loop_in_order _ exps env [] st out st') in H.
    destruct H as [(vs & -> & Hvs)|(e & -> & Hfe)].
    + left. simpl. split; [exact Hvs|].
      exact (evaluated_in_order_length _ _ _ _ _ _ Hvs).
    + right. exists e. split; [reflexivity|]. split; [|exact Hfe].
      destruct Hfe as (pre & x & rest & vs & st1 & _ & _ & _ & He). exact He.
  - intros vs st' H.
    exact (evalExpressions_loop_values _ _ _ _ _ _ H []).
  - intros e st' H.
    exact (evalExpressions_loop_first_error _ _ _ _ _ _ H []).
Qed.

(** On [[1, x, 3]] with [x] unbound: the result is the Error of [x]
    alone, [1] has been evaluated before it and [3] is not evaluated. *)
Lemma evalExpressions_all_or_one_error_witness :
  (evaluated_in_order (Eval 3) 0%nat
     [ast.IntegerLiteral 1; ast.Ident (ast.mkIdentifier "x"); ast.IntegerLiteral 3]
     {| envs := [object.mkEnviroment ∅ None]; next := 9%nat; printed := [] |}
     [object.Error 10%nat "identifier not found: x"]
     {| envs := [object.mkEnviroment ∅ None]; next := 11%nat; printed := [] |}
   /\ length [object.Error 10%nat "identifier not found: x"]
      = length [ast.IntegerLiteral 1; ast.Ident (ast.mkIdentifier "x");
                ast.IntegerLiteral 3]
   /\ Forall not_error [object.Error 10%nat "identifier not found: x"])
  \/ (exists e,
         [object.Error 10%nat "identifier not found: x"] = [e]
         /\ isError e = true
         /\ first_error (Eval 3) 0%nat
              [ast.IntegerLiteral 1; ast.Ident (ast.mkIdentifier "x");
               ast.IntegerLiteral 3]
              {| envs := [object.mkEnviroment ∅ None]; next := 9%nat; printed := [] |}
              e
              {| envs := [object.mkEnviroment ∅ None]; next := 11%nat; printed := [] |}).
Proof.
  apply (proj1 (evalExpressions_all_or_one_error 3%nat
                  [ast.IntegerLiteral 1; ast.Ident (ast.mkIdentifier "x");
                   ast.IntegerLiteral 3] 0%nat
                  {| envs := [object.mkEnviroment ∅ None]; next := 9%nat;
                     printed := [] |})).
  vm_compute. reflexivity.
Defined.

(** X4: an array literal evaluates either to a fresh Array, allocated at
    the next free address once its items have been evaluated in order,
    that holds the objects the items evaluated to, one per item and none
    of them an Error; or to the first Error an item evaluated to, in the
    state that item left.  No Error object is ever stored in an array. *)
Theorem array_literal_holds_no_error :
  forall fuel Items env st r st',
    Eval (S fuel) (ast.NodeExpression (ast.Array Items)) env st = Ok r st' ->
    (isError r = true /\ first_error (Eval fuel) env Items st r st')
    \/ (exists es st1,
           evaluated_in_order (Eval fuel) env Items st es st1
           /\ r = object.Array (next st1) es
           /\ st' = allocated st1
           /\ length es = length Items
           /\ Forall not_error es).
Proof.
  intros fuel Items env st r st' H. simpl in H. unmonad.
  destruct (evalExpressions (Eval fuel) Items env st) as [ele s1| |] eqn:He;
    try discriminate.
  apply (evalExpressions_loop_in_order _ Items env [] st ele s1) in He.
  destruct He as [(vs & -> & Hvs)|(e & -> & Hfe)].
  - right. simpl in H.
    destruct (evaluated_in_order_length _ _ _ _ _ _ Hvs) as [Hl Hf].
    exists vs, s1.
    destruct vs as [|e [|e' vs]].
    + inversion H; subst. repeat split; assumption.
    + inversion Hf as [|? ? Hne _]; subst. unfold not_error in Hne. rewrite Hne in H.
      inversion H; subst. repeat split; assumption.
    + inversion H; subst. repeat split; assumption.
  - left. pose proof Hfe as (pre & x & rest & vs & st1 & _ & _ & _ & Herr).
    rewrite Herr in H. inversion H; subst. split; assumption.
Qed.

(** On [[1, 2]]: the Array is allocated after the two Integers. *)
Lemma array_literal_holds_no_error_witness :
  (isError (object.Array 11%nat [object.Integer 9%nat 1; object.Integer 10%nat 2]) = true
   /\ first_error (Eval 2) 0%nat [ast.IntegerLiteral 1; ast.IntegerLiteral 2]
        {| envs := []; next := 9%nat; printed := [] |}
        (object.Array 11%nat [object.Integer 9%nat 1; object.Integer 10%nat 2])
        {| envs := []; next := 12%nat; printed := [] |})
  \/ (exists es st1,
         evaluated_in_order (Eval 2) 0%nat [ast.IntegerLiteral 1; ast.IntegerLiteral 2]
           {| envs := []; next := 9%nat; printed := [] |} es st1
         /\ object.Array 11%nat [object.Integer 9%nat 1; object.Integer 10%nat 2]
            = object.Array (next st1) es
         /\ {| envs := []; next := 12%nat; printed := [] |} = allocated st1
         /\ length es = length [ast.IntegerLiteral 1; ast.IntegerLiteral 2]
         /\ Forall not_error es).
Proof.
  apply (array_literal_holds_no_error 2%nat [ast.IntegerLiteral 1; ast.IntegerLiteral 2]
           0%nat {| envs := []; next := 9%nat; printed := [] |}).
  vm_compute. reflexivity.
Defined.

(** ** Errors short-circuit *)

(** X5: an operand that evaluates to an Error ends the evaluation of the
    expression or statement around it, which returns that very Error in
    the state the operand left: a prefix operator and a [return] are not
    applied, the right operand of an infix operator is not evaluated
    after a failing left one, a [let] binds nothing, and a call does not
    evaluate its arguments after a failing callee. *)
Theorem error_operand_short_circuits :
  forall fuel x env st e st1,
    Eval fuel (ast.NodeExpression x) env st = Ok e st1 ->
    isError e = true ->
    (forall op, Eval (S fuel) (ast.NodeExpression (ast.PrefixExpression op x)) env st
                = Ok e st1)
    /\ (forall op y, Eval (S fuel) (ast.NodeExpression (ast.InfixExpression op x y)) env st
                     = Ok e st1)
    /\ Eval (S fuel) (ast.NodeStatement (ast.ReturnStatement x)) env st = Ok e st1
    /\ (forall name, Eval (S fuel) (ast.NodeStatement (ast.LetStatement name x)) env st
                     = Ok e st1)
    /\ (forall args, Eval (S fuel) (ast.NodeExpression (ast.CallExpression x args)) env st
                     = Ok e st1)
    /\ (forall c a, Eval (S fuel) (ast.NodeExpression (ast.IfExpression x c a)) env st
                    = Ok e st1).
Proof.
  intros fuel x env st e st1 H He.
  repeat split; intros; simpl; unfold evalIfExpression; unmonad;
    rewrite H, He; reflexivity.
Qed.

Lemma error_operand_short_circuits_witness :
  Eval 3 (ast.NodeExpression
            (ast.InfixExpression "+" (ast.Ident (ast.mkIdentifier "x"))
               (ast.IntegerLiteral 1))) 0%nat
       {| envs := [object.mkEnviroment ∅ None]; next := 9%nat; printed := [] |}
  = Ok (object.Error 9%nat "identifier not found: x")
       {| envs := [object.mkEnviroment ∅ None]; next := 10%nat; printed := [] |}.
Proof.
  destruct (error_operand_short_circuits 2%nat (ast.Ident (ast.mkIdentifier "x")) 0%nat
              {| envs := [object.mkEnviroment ∅ None]; next := 9%nat; printed := [] |}
              (object.Error 9%nat "identifier not found: x")
              {| envs := [object.mkEnviroment ∅ None]; next := 10%nat; printed := [] |})
    as (_ & Hinfix & _).
  - vm_compute. reflexivity.
  - reflexivity.
  - apply Hinfix.
Defined.

(** X6: the right operand of an infix operator, and the operands of an index
    expression.  Both operands of an index expression are evaluated
    before either is looked at, so a failing left operand wins over a
    failing index, but only after the index has been evaluated too. *)
Theorem error_in_second_operand :
  forall fuel x y env st l st1 r st2,
    Eval fuel (ast.NodeExpression x) env st = Ok l st1 ->
    Eval fuel (ast.NodeExpression y) env st1 = Ok r st2 ->
    (isError l = false -> isError r = true ->
     forall op, Eval (S fuel) (ast.NodeExpression (ast.InfixExpression op x y)) env st
                = Ok r st2)
    /\ (isError l = true ->
        Eval (S fuel) (ast.NodeExpression (ast.IndexExpression x y)) env st = Ok l st2)
    /\ (isError l = false -> isError r = true ->
        Eval (S fuel) (ast.NodeExpression (ast.IndexExpression x y)) env st = Ok r st2).
Proof.
  intros fuel x y env st l st1 r st2 Hx Hy.
  repeat split; intros; simpl; unmonad; rewrite Hx;
    repeat first [ rewrite Hy
                 | match goal with H : isError _ = _ |- _ => rewrite H end ];
    reflexivity.
Qed.

Lemma error_in_second_operand_witness :
  Eval 4 (ast.NodeExpression
            (ast.IndexExpression (ast.Ident (ast.mkIdentifier "x"))
               (ast.CallExpression (ast.Ident (ast.mkIdentifier "puts"))
                  [ast.IntegerLiteral 1]))) 0%nat
       {| envs := [object.mkEnviroment ∅ None]; next := 9%nat; printed := [] |}
  = Ok (object.Error 9%nat "identifier not found: x")
       {| envs := [object.mkEnviroment ∅ None]; next := 11%nat;
          printed := [object.Integer 10%nat 1] |}.
Proof.
  destruct (error_in_second_operand 3%nat (ast.Ident (ast.mkIdentifier "x"))
              (ast.CallExpression (ast.Ident (ast.mkIdentifier "puts"))
                 [ast.IntegerLiteral 1]) 0%nat
              {| envs := [object.mkEnviroment ∅ None]; next := 9%nat; printed := [] |}
              (object.Error 9%nat "identifier not found: x")
              {| envs := [object.mkEnviroment ∅ None]; next := 10%nat; printed := [] |}
              NULL
              {| envs := [object.mkEnviroment ∅ None]; next := 11%nat;
                 printed := [object.Integer 10%nat 1] |})
    as (_ & Hleft & _).
  - vm_compute. reflexivity.
  - vm_compute. reflexivity.
  - apply Hleft. reflexivity.
Defined.

(** ** Function application with enough arguments *)

(** The bindings the loop of [applyFunction] leaves in the new
    environment: parameter [k], [k+1], ... of [ps] set to the argument at
    the same index, a later parameter of the same name overwriting an
    earlier one. *)
Fixpoint bound_store (ps : list ast.Identifier) (k : nat) (args : list object.Object)
    (m : gmap string object.Object) : gmap string object.Object :=
  match ps with
  | [] => m
  | p :: ps' =>
      match args !! k with
      | Some arg => bound_store ps' (S k) args (<[ast.Value p := arg]> m)
      | None => m
      end
  end.

Lemma bound_store_other ps : forall k args m name,
  (forall q, q ∈ ps -> ast.Value q <> name) ->
  bound_store ps k args m !! name = m !! name.
Proof.
  induction ps as [|p ps IH]; intros k args m name H; simpl; [reflexivity|].
  destruct (args !! k) as [arg|]; [|reflexivity].
  rewrite IH.
  - apply lookup_insert_ne. apply H. left.
  - intros q Hq. apply H. right. exact Hq.
Qed.

Lemma bound_store_lookup ps : forall k args m i p arg,
  ps !! i = Some p ->
  args !! (k + i)%nat = Some arg ->
  (forall j q, (i < j)%nat -> ps !! j = Some q -> ast.Value q <> ast.Value p) ->
  (k + length ps <= length args)%nat ->
  bound_store ps k args m !! ast.Value p = Some arg.
Proof.
  induction ps as [|p0 ps IH]; intros k args m i p arg Hp Ha Hlater Hlen;
    [discriminate|].
  simpl in Hlen. simpl.
  destruct (lookup_lt_is_Some_2 args k ltac:(lia)) as [a0 Ha0]. rewrite Ha0.
  destruct i as [|i].
  - simpl in Hp. inversion Hp; subst p0.
    rewrite Nat.add_0_r, Ha0 in Ha. inversion Ha; subst a0.
    rewrite bound_store_other; [apply lookup_insert_eq|].
    intros q Hq. apply list_elem_of_lookup in Hq. destruct Hq as [j Hj].
    apply (Hlater (S j)); [lia | exact Hj].
  - simpl in Hp. apply (IH (S k) args _ i p arg Hp).
    + rewrite <- Ha. f_equal. lia.
    + intros j q Hij Hq. apply (Hlater (S j)); [lia | exact Hq].
    + lia.
Qed.

(** A name bound in an environment itself is found there. *)
Lemma Get_own (e : object.envref) name st En val :
  envs st !! e = Some En ->
  object.store En !! name = Some val ->
  Get e name st = Ok (Some val) st.
Proof.
  intros He Hn. unfold Get.
  assert (H : forall k, object.Get_from k (envs st) e name = object.Found val)
    by (intros k; destruct k; simpl; rewrite He, Hn; reflexivity).
  rewrite H. reflexivity.
Qed.

(** With an argument for every parameter the binding loop runs through
    and changes nothing but the bindings of the new environment. *)
Lemma bind_parameters_enough ps : forall k args e st E0,
  envs st !! e = Some E0 ->
  (k + length ps <= length args)%nat ->
  bind_parameters ps k args e st
  = Ok tt {| envs := <[e := {| object.store := bound_store ps k args (object.store E0);
                               object.outer := object.outer E0 |}]> (envs st);
             next := next st; printed := printed st |}.
Proof.
  induction ps as [|p ps IH]; intros k args e st E0 He Hlen; simpl in *.
  - unmonad. destruct st as [es n pr]. destruct E0 as [s0 o0]. simpl in *.
    unfold object.envref in *. rewrite (list_insert_id _ _ _ He). reflexivity.
  - destruct (lookup_lt_is_Some_2 args k ltac:(lia)) as [arg Ha]. rewrite Ha.
    unmonad. unfold Set_, object.Set_in. unfold object.envref in *. rewrite He.
    pose (E1 := {| object.store := <[ast.Value p := arg]> (object.store E0);
                   object.outer := object.outer E0 |}).
    rewrite (IH (S k) args e
               {| envs := <[e := E1]> (envs st); next := next st;
                  printed := printed st |} E1).
    + simpl. rewrite list_insert_insert_eq. reflexivity.
    + simpl. apply list_lookup_insert_eq. apply lookup_lt_Some in He. exact He.
    + lia.
Qed.

(** X7: a call of a user-defined function with at least as many arguments as
    parameters does not fail in the binding loop: surplus arguments are
    ignored, the body is evaluated in a new environment (the next one of
    the store) and a ReturnValue it yields is unwrapped.  In that
    environment every parameter is bound to the argument at its own
    position, unless a later parameter has the same name. *)
Theorem parameters_bound_positionally :
  forall fuel a Parameters Body Env params st,
    (length Parameters <= length params)%nat ->
    exists st1,
      applyFunction (Eval fuel) (object.Function a Parameters Body Env) params st
      = unwrapped (Eval fuel (ast.NodeBlock Body) (length (envs st)) st1)
      /\ next st1 = next st
      /\ printed st1 = printed st
      /\ forall i p arg,
           Parameters !! i = Some p ->
           params !! i = Some arg ->
           (forall j q, (i < j)%nat -> Parameters !! j = Some q ->
                        ast.Value q <> ast.Value p) ->
           Get (length (envs st)) (ast.Value p) st1 = Ok (Some arg) st1.
Proof.
  intros fuel a ps body cenv args st Hlen.
  pose (E0 := {| object.store := ∅; object.outer := Some cenv |}).
  assert (He : (envs st ++ [E0])%list !! length (envs st) = Some E0)
    by (apply list_lookup_middle; reflexivity).
  exists {| envs := <[length (envs st) :=
                        {| object.store := bound_store ps 0 args (object.store E0);
                           object.outer := object.outer E0 |}]> (envs st ++ [E0])%list;
            next := next st; printed := printed st |}.
  split; [|split; [|split]].
  - unfold applyFunction, NewEnclosedEnviroment. unmonad.
    erewrite bind_parameters_enough; [| exact He | simpl; lia].
    simpl. destruct (Eval fuel (ast.NodeBlock body) _ _) as [r s| |];
      [destruct r|..]; reflexivity.
  - reflexivity.
  - reflexivity.
  - intros i p arg Hp Ha Hlater.
    apply (Get_own _ _ _ {| object.store := bound_store ps 0 args (object.store E0);
                            object.outer := object.outer E0 |}).
    + simpl. apply list_lookup_insert_eq. rewrite length_app. simpl. lia.
    + simpl. apply (bound_store_lookup ps 0%nat args _ i p arg Hp Ha Hlater).
      simpl. lia.
Qed.

(** On [fn(x, y) { y }(1, 2, 3)]: the third argument is ignored and [y]
    is the second. *)
Lemma parameters_bound_positionally_witness :
  exists st1,
    applyFunction (Eval 5)
      (object.Function 9%nat [ast.mkIdentifier "x"; ast.mkIdentifier "y"]
         (ast.mkBlock [ast.ExpressionStatement (ast.Ident (ast.mkIdentifier "y"))]) 0%nat)
      [object.Integer 10%nat 1; object.Integer 11%nat 2; object.Integer 12%nat 3]
      {| envs := [object.mkEnviroment ∅ None]; next := 13%nat; printed := [] |}
    = unwrapped
        (Eval 5
           (ast.NodeBlock
              (ast.mkBlock [ast.ExpressionStatement (ast.Ident (ast.mkIdentifier "y"))]))
           1%nat st1)
    /\ Get 1%nat "y" st1 = Ok (Some (object.Integer 11%nat 2)) st1.
Proof.
  destruct (parameters_bound_positionally 5%nat 9%nat
              [ast.mkIdentifier "x"; ast.mkIdentifier "y"]
              (ast.mkBlock [ast.ExpressionStatement (ast.Ident (ast.mkIdentifier "y"))])
              0%nat
              [object.Integer 10%nat 1; object.Integer 11%nat 2; object.Integer 12%nat 3]
              {| envs := [object.mkEnviroment ∅ None]; next := 13%nat; printed := [] |})
    as (st1 & Happ & _ & _ & Hget).
  - simpl. lia.
  - exists st1. split; [exact Happ|].
    apply (Hget 1%nat (ast.mkIdentifier "y") (object.Integer 11%nat 2)).
    + reflexivity.
    + reflexivity.
    + intros j q Hj Hq. destruct j as [|[|j]]; try lia. discriminate.
Defined.

(** ** Builtins *)

(** The index expression on an Array and an Integer, in one equation. *)
Lemma evalIndexExpression_array a es ai i st :
  evalIndexExpression (object.Array a es) (object.Integer ai i) st
  = Ok (if (i <? 0) || (Z.of_nat (length es) - 1 <? i) then NULL
        else default NULL (es !! Z.to_nat i)) st.
Proof.
  unfold evalIndexExpression, both_types, TypeOf. simpl. unmonad. simpl.
  destruct (Z.ltb_spec i 0) as [?|Hi]; [reflexivity|].
  destruct (Z.ltb_spec (Z.of_nat (length es) - 1) i) as [?|Hlt]; [reflexivity|].
  simpl. destruct (lookup_lt_is_Some_2 es (Z.to_nat i) ltac:(lia)) as [e He].
  rewrite He. reflexivity.
Qed.

(** X8: called with one Array, [first] returns what indexing the array at 0
    returns and [last] what indexing it at its length minus one returns,
    the NULL of an empty array included. *)
Theorem first_and_last_agree_with_indexing :
  forall fuel b a es ai st,
    applyFunction (Eval fuel) (object.Builtin b object.fn_first) [object.Array a es] st
    = evalIndexExpression (object.Array a es) (object.Integer ai 0) st
    /\ applyFunction (Eval fuel) (object.Builtin b object.fn_last) [object.Array a es] st
       = evalIndexExpression (object.Array a es)
           (object.Integer ai (Z.of_nat (length es) - 1)) st.
Proof.
  intros. rewrite !evalIndexExpression_array. split.
  - destruct es as [|x es]; [reflexivity|].
    replace (Z.of_nat (length (x :: es)) - 1 <? 0) with false
      by (symmetry; apply Z.ltb_ge; simpl length; lia).
    reflexivity.
  - unfold applyFunction, call, builtin_last. simpl.
    destruct es as [|x es]; [reflexivity|].
    replace (Z.of_nat (length (x :: es)) - 1 <? 0) with false
      by (symmetry; apply Z.ltb_ge; simpl length; lia).
    rewrite Z.ltb_irrefl. simpl orb. cbv iota.
    replace (Z.to_nat (Z.of_nat (length (x :: es)) - 1)) with (length (x :: es) - 1)%nat
      by lia.
    destruct (lookup_lt_is_Some_2 (x :: es) (length (x :: es) - 1)%nat
                ltac:(simpl; lia)) as [e He].
    replace (length (x :: es) <? 1)%nat with false
      by (symmetry; apply Nat.ltb_ge; simpl; lia).
    unmonad. rewrite He. reflexivity.
Qed.



(** ** Operators *)

(** X11: the prefix [!] always yields one of the two Boolean singletons; it
    yields TRUE exactly on the FALSE and the NULL singleton, so every
    other object (any Integer, zero included) negates to FALSE, and
    negating three times is negating once. *)
Theorem bang_yields_a_singleton :
  forall val,
    (evalBangOperatorExpression val = TRUE \/ evalBangOperatorExpression val = FALSE)
    /\ (evalBangOperatorExpression val = TRUE
        <-> object.same val FALSE = true \/ object.same val NULL = true)
    /\ evalBangOperatorExpression
         (evalBangOperatorExpression (evalBangOperatorExpression val))
       = evalBangOperatorExpression val.
Proof.
  intros val. unfold evalBangOperatorExpression.
  assert (Hx : object.same val TRUE = true -> object.same val FALSE = false
                                              /\ object.same val NULL = false).
  { destruct val; simpl; try discriminate.
    destruct a as [|[|[|a]]]; simpl; try discriminate. auto. }
  destruct (object.same val TRUE) eqn:HT.
  - destruct (Hx eq_refl) as [-> ->]. simpl.
    split; [right; reflexivity|]. split; [|reflexivity].
    split; [discriminate | intros [?|?]; discriminate].
  - destruct (object.same val FALSE) eqn:HF; simpl.
    + split; [left; reflexivity|]. split; [|reflexivity]. split; auto.
    + destruct (object.same val NULL) eqn:HN; simpl.
      * split; [left; reflexivity|]. split; [|reflexivity]. split; auto.
      * split; [right; reflexivity|]. split; [|reflexivity].
        split; [discriminate | intros [?|?]; discriminate].
Qed.

Lemma wrap64_range z : - 2 ^ 63 <= wrap64 z < 2 ^ 63.
Proof.
  unfold wrap64. pose proof (Z.mod_pos_bound (z + 2 ^ 63) (2 ^ 64) ltac:(lia)). lia.
Qed.

Lemma wrap64_small z : - 2 ^ 63 <= z < 2 ^ 63 -> wrap64 z = z.
Proof. intros H. unfold wrap64. rewrite Z.mod_small; lia. Qed.

(** X12: an Integer that an infix operator on two Integers or the prefix minus
    on an Integer produces lies within the 64-bit range, whatever the
    operands: the arithmetic wraps around and never leaves it. *)
Theorem integer_results_stay_in_range :
  (forall op ar r al l st a v st',
      evalInfixExpression op (object.Integer ar r) (object.Integer al l) st
      = Ok (object.Integer a v) st' ->
      - 2 ^ 63 <= v < 2 ^ 63)
  /\ (forall ar r st a v st',
         evalMinusPrefixOperator (object.Integer ar r) st = Ok (object.Integer a v) st' ->
         - 2 ^ 63 <= v < 2 ^ 63).
Proof.
  split.
  - intros op ar r al l st a v st' H.
    unfold evalInfixExpression, both_types, TypeOf in H. simpl in H. unmonad.
    simpl in H.
    repeat match type of H with
           | (if ?c then _ else _) _ = _ => destruct c
           | (if ?c then _ else _) = _ => destruct c
           end;
      try discriminate;
      try (inversion H; subst; apply wrap64_range);
      try (unfold nativeBoolObject in H; match type of H with
           | context [if ?c then _ else _] => destruct c end; discriminate).
  - intros ar r st a v st' H.
    unfold evalMinusPrefixOperator, TypeOf in H. simpl in H. unmonad.
    inversion H; subst. apply wrap64_range.
Qed.

Lemma integer_results_stay_in_range_witness :
  - 2 ^ 63 <= - 2 ^ 63 < 2 ^ 63.
Proof.
  apply (proj1 integer_results_stay_in_range "+" 9%nat 1 10%nat (2 ^ 63 - 1)
           {| envs := []; next := 11%nat; printed := [] |} 11%nat (- 2 ^ 63)
           {| envs := []; next := 12%nat; printed := [] |}).
  vm_compute. reflexivity.
Defined.


Lemma both_types_eq x t1 y t2 tx ty st :
  object.Type_ x = Some tx ->
  object.Type_ y = Some ty ->
  both_types x t1 y t2 st = Ok (String.eqb tx t1 && String.eqb ty t2) st.
Proof.
  intros Hx Hy. unfold both_types, TypeOf. rewrite Hx, Hy. unmonad.
  destruct (String.eqb tx t1); reflexivity.
Qed.

Lemma same_sym x y : object.same x y = object.same y x.
Proof.
  unfold object.same.
  destruct (object.Type_ x) as [tx|], (object.Type_ y) as [ty|],
           (object.address x) as [ax|], (object.address y) as [ay|];
    try reflexivity.
  rewrite (String.eqb_sym tx ty), (Nat.eqb_sym ax ay). reflexivity.
Qed.

Lemma bang_nativeBoolObject b :
  evalBangOperatorExpression (nativeBoolObject b) = nativeBoolObject (negb b).
Proof. destruct b; reflexivity. Qed.

(** X13: on two Integers [a < b] is [b > a]: the two comparisons are each
    other's mirror image. *)
Theorem less_is_mirrored_greater :
  forall aa a ab b st,
    evalInfixExpression "<" (object.Integer ab b) (object.Integer aa a) st
    = evalInfixExpression ">" (object.Integer aa a) (object.Integer ab b) st.
Proof.
  intros. unfold evalInfixExpression, both_types, TypeOf. simpl. unmonad. simpl.
  rewrite Z.gtb_ltb. reflexivity.
Qed.

(** X14: whenever [==] on two operands yields a Boolean, [!=] on the same
    operands yields its negation, the one the prefix [!] computes: on two
    Integers by value, on every other pair by identity. *)
Theorem not_equal_negates_equal :
  forall right left st r st',
    evalInfixExpression "==" right left st = Ok r st' ->
    r = TRUE \/ r = FALSE ->
    evalInfixExpression "!=" right left st = Ok (evalBangOperatorExpression r) st'.
Proof.
  intros right left st r st' H Hr.
  unfold evalInfixExpression in *. unmonad.
  destruct (object.Type_ right) as [tr|] eqn:Tr;
    [|unfold both_types, TypeOf in H; rewrite Tr in H; discriminate].
  destruct (object.Type_ left) as [tl|] eqn:Tl.
  - rewrite (both_types_eq _ _ _ _ _ _ _ Tr Tl) in H.
    rewrite (both_types_eq _ _ _ _ _ _ _ Tr Tl).
    destruct (String.eqb tr object.INTEGER_OBJ && String.eqb tl object.INTEGER_OBJ) eqn:Hi.
    + destruct right; simpl in Tr; inversion Tr; subst; try discriminate.
      destruct left; simpl in Tl; inversion Tl; subst; try discriminate.
      simpl in *. inversion H; subst. rewrite bang_nativeBoolObject. reflexivity.
    + cbv beta iota in H. cbv beta iota.
      rewrite (both_types_eq _ _ _ _ _ _ _ Tr Tl) in H.
      rewrite (both_types_eq _ _ _ _ _ _ _ Tr Tl).
      destruct (String.eqb tr object.STRING_OBJ && String.eqb tl object.STRING_OBJ) eqn:Hs.
      * unfold evalInfixStringExpression in H. simpl in H. unmonad.
        unfold TypeOf in H. rewrite Tl, Tr in H. unmonad.
        inversion H; subst. unfold TRUE, FALSE in Hr. destruct Hr; discriminate.
      * simpl in *. inversion H; subst.
        rewrite bang_nativeBoolObject, (same_sym right left). reflexivity.
  - unfold both_types, TypeOf in *. rewrite Tr, Tl in *. unmonad.
    destruct (String.eqb tr object.INTEGER_OBJ); [discriminate|].
    destruct (String.eqb tr object.STRING_OBJ); [discriminate|].
    simpl in *. inversion H; subst.
    rewrite bang_nativeBoolObject, (same_sym right left). reflexivity.
Qed.

Lemma not_equal_negates_equal_witness :
  evalInfixExpression "!=" (object.Array 9%nat []) (object.Array 10%nat [])
    {| envs := []; next := 11%nat; printed := [] |}
  = Ok (evalBangOperatorExpression FALSE) {| envs := []; next := 11%nat; printed := [] |}.
Proof.
  apply not_equal_negates_equal; [vm_compute; reflexivity | right; reflexivity].
Defined.

(** X15: the two Boolean singletons compare by identity, which on them is
    equality of the truth values. *)
Theorem boolean_identity_is_equality :
  forall b1 b2 st,
    evalInfixExpression "==" (nativeBoolObject b2) (nativeBoolObject b1) st
    = Ok (nativeBoolObject (Bool.eqb b1 b2)) st.
Proof. intros [] [] st; reflexivity. Qed.

(** X16: an infix operator other than [==] and [!=] on operands of two
    different kinds yields the Error "type mismatch" naming the left
    kind, the operator and the right kind; on two operands of the same
    kind that is neither INTEGER nor STRING it yields "unknown
    operator". *)
Theorem infix_kind_errors :
  forall op right left tr tl st,
    object.Type_ right = Some tr ->
    object.Type_ left = Some tl ->
    op <> "==" -> op <> "!=" ->
    (tl <> tr ->
     evalInfixExpression op right left st
     = Ok (object.Error (next st) ("type mismatch: " ++ tl ++ " " ++ op ++ " " ++ tr))
          (allocated st))
    /\ (tl = tr -> tl <> object.INTEGER_OBJ -> tl <> object.STRING_OBJ ->
        evalInfixExpression op right left st
        = Ok (object.Error (next st) ("unknown operator: " ++ tl ++ " " ++ op ++ " " ++ tr))
             (allocated st)).
Proof.
  intros op right left tr tl st Tr Tl Heq Hne.
  apply String.eqb_neq in Heq. apply String.eqb_neq in Hne.
  split.
  - intros Hd. unfold evalInfixExpression. unmonad.
    assert (Hi : String.eqb tr object.INTEGER_OBJ && String.eqb tl object.INTEGER_OBJ = false).
    { destruct (String.eqb_spec tr object.INTEGER_OBJ); [|reflexivity].
      destruct (String.eqb_spec tl object.INTEGER_OBJ); [congruence | reflexivity]. }
    assert (Hs : String.eqb tr object.STRING_OBJ && String.eqb tl object.STRING_OBJ = false).
    { destruct (String.eqb_spec tr object.STRING_OBJ); [|reflexivity].
      destruct (String.eqb_spec tl object.STRING_OBJ); [congruence | reflexivity]. }
    rewrite (both_types_eq _ _ _ _ _ _ _ Tr Tl), Hi. cbv beta iota.
    rewrite (both_types_eq _ _ _ _ _ _ _ Tr Tl), Hs, Heq, Hne. cbv beta iota.
    unfold TypeOf. rewrite Tr, Tl. unmonad.
    destruct (String.eqb_spec tr tl); [congruence | reflexivity].
  - intros <- Hi Hs. unfold evalInfixExpression. unmonad.
    apply String.eqb_neq in Hi. apply String.eqb_neq in Hs.
    rewrite (both_types_eq _ _ _ _ _ _ _ Tr Tl), Hi. cbv beta iota delta [andb].
    rewrite (both_types_eq _ _ _ _ _ _ _ Tr Tl), Hs, Heq, Hne. cbv beta iota delta [andb].
    unfold TypeOf. rewrite Tr, Tl. unmonad. cbv beta iota.
    rewrite String.eqb_refl. reflexivity.
Qed.

Lemma infix_kind_errors_witness :
  evalInfixExpression "+" TRUE (object.Integer 9%nat 5)
    {| envs := []; next := 10%nat; printed := [] |}
  = Ok (object.Error 10%nat "type mismatch: INTEGER + BOOLEAN")
       {| envs := []; next := 11%nat; printed := [] |}
  /\ evalInfixExpression "+" TRUE FALSE {| envs := []; next := 10%nat; printed := [] |}
     = Ok (object.Error 10%nat "unknown operator: BOOLEAN + BOOLEAN")
          {| envs := []; next := 11%nat; printed := [] |}.
Proof.
  split.
  - apply (proj1 (infix_kind_errors "+" TRUE (object.Integer 9%nat 5) "BOOLEAN" "INTEGER"
                    {| envs := []; next := 10%nat; printed := [] |}
                    eq_refl eq_refl ltac:(discriminate) ltac:(discriminate))).
    discriminate.
  - apply (proj2 (infix_kind_errors "+" TRUE FALSE "BOOLEAN" "BOOLEAN"
                    {| envs := []; next := 10%nat; printed := [] |}
                    eq_refl eq_refl ltac:(discriminate) ltac:(discriminate)));
      [reflexivity | discriminate | discriminate].
Defined.

(** X17: negating an Integer twice gives the Integer back, for every 64-bit
    value: the most negative one negates to itself both times. *)
Theorem double_negation_of_an_integer :
  forall a v st,
    - 2 ^ 63 <= v < 2 ^ 63 ->
    (x ← evalMinusPrefixOperator (object.Integer a v); evalMinusPrefixOperator x) st
    = Ok (object.Integer (S (next st)) v) (allocated (allocated st)).
Proof.
  intros a v st Hv. unfold evalMinusPrefixOperator, TypeOf. simpl. unmonad. simpl.
  do 2 f_equal.
  destruct (Z.eq_dec v (- 2 ^ 63)) as [->|Hne]; [reflexivity|].
  rewrite (wrap64_small (- v)) by lia. rewrite Z.opp_involutive.
  apply wrap64_small. exact Hv.
Qed.

Lemma double_negation_of_an_integer_witness :
  (x ← evalMinusPrefixOperator (object.Integer 9%nat (- 2 ^ 63));
   evalMinusPrefixOperator x) {| envs := []; next := 10%nat; printed := [] |}
  = Ok (object.Integer 11%nat (- 2 ^ 63)) {| envs := []; next := 12%nat; printed := [] |}.
Proof.
  apply (double_negation_of_an_integer 9%nat (- 2 ^ 63)
           {| envs := []; next := 10%nat; printed := [] |}).
  lia.
Defined.

(* ===================================================================== *)
(** * Further properties of the lexer *)
(* ===================================================================== *)

(** The state a lexer is in between two calls: the read position is one
    past the position, and the current byte is the byte of the input at
    the position, or the zero byte past the end. *)
Definition lexer_wf (l : lexer.Lexer) : Prop :=
  0 <= lexer.position l
  /\ lexer.readPosition l = lexer.position l + 1
  /\ lexer.ch l = (if lexer.len (lexer.input l) <=? lexer.position l
                   then zero
                   else lexer.byte_at (lexer.input l) (lexer.position l)).

Section LexerInvariant.
Import lexer.

Lemma wf_readChar l : 0 <= readPosition l -> lexer_wf (readChar l).
Proof. intros H. unfold lexer_wf, readChar. simpl. repeat split; lia. Qed.

Lemma readPosition_readChar l : readPosition (readChar l) = readPosition l + 1.
Proof. reflexivity. Qed.

Lemma input_readChar l : input (readChar l) = input l.
Proof. reflexivity. Qed.

Lemma wf_New inp : lexer_wf (New inp).
Proof. apply wf_readChar. simpl. lia. Qed.

Lemma wf_readPosition l : lexer_wf l -> 0 <= readPosition l.
Proof. intros (H1 & H2 & _). lia. Qed.

Lemma wf_readWhile cond n : forall l, lexer_wf l -> lexer_wf (readWhile cond n l).
Proof.
  induction n as [|n IH]; intros l H; simpl; destruct (cond (ch l)); try exact H.
  apply IH, wf_readChar, wf_readPosition, H.
Qed.

Lemma readWhile_advances cond n : forall l,
  readPosition l <= readPosition (readWhile cond n l)
  /\ input (readWhile cond n l) = input l.
Proof.
  induction n as [|n IH]; intros l; simpl; destruct (cond (ch l));
    try (split; [lia | reflexivity]).
  destruct (IH (readChar l)) as [H1 H2]. simpl in *. split; [lia | exact H2].
Qed.

Lemma readWhile_advances_strictly cond n l :
  cond (ch l) = true ->
  readPosition l < readPosition (readWhile cond (S n) l).
Proof.
  intros H. simpl. rewrite H.
  destruct (readWhile_advances cond n (readChar l)) as [H1 _]. simpl in H1. lia.
Qed.

Lemma readString_loop_advances n : forall l,
  readPosition l < readPosition (readString_loop n l)
  /\ input (readString_loop n l) = input l
  /\ (0 <= readPosition l -> lexer_wf (readString_loop n l)).
Proof.
  induction n as [|n IH]; intros l.
  - replace (readString_loop 0 l) with (readChar l)
      by (unfold readString_loop; destruct (_ || _); reflexivity).
    split; [simpl; lia | split; [reflexivity | apply wf_readChar]].
  - change (readString_loop (S n) l)
      with (if Ascii.eqb (ch (readChar l)) dquote || Ascii.eqb (ch (readChar l)) zero
            then readChar l else readString_loop n (readChar l)).
    destruct (Ascii.eqb (ch (readChar l)) dquote || Ascii.eqb (ch (readChar l)) zero).
    + split; [simpl; lia | split; [reflexivity | apply wf_readChar]].
    + destruct (IH (readChar l)) as (H1 & H2 & H3).
      split; [simpl in H1; lia | split; [exact H2 | intros; apply H3; simpl; lia]].
Qed.

(** Where a call of [NextToken] leaves the lexer, by the kind of the byte
    it found after the white space. *)
Lemma NextToken_shape l :
  snd (NextToken l) = readChar (skipWhitespace l)
  \/ snd (NextToken l) = readChar (readChar (skipWhitespace l))
  \/ snd (NextToken l) = readChar (snd (readString (skipWhitespace l)))
  \/ (isLetter (ch (skipWhitespace l)) = true
      /\ snd (NextToken l) = snd (readIdentifier (skipWhitespace l)))
  \/ (isDigit (ch (skipWhitespace l)) = true
      /\ snd (NextToken l) = snd (readNumber (skipWhitespace l))).
Proof.
  unfold NextToken. cbv zeta.
  repeat match goal with
         | |- context [if ?b then _ else _] => destruct b eqn:?
         end;
    try (left; reflexivity);
    try (right; left; reflexivity);
    try (right; right; left; destruct (readString _); reflexivity);
    try (right; right; right; left; split; [reflexivity|];
         destruct (readIdentifier _); reflexivity);
    try (right; right; right; right; split; [reflexivity|];
         destruct (readNumber _); reflexivity).
Qed.

End LexerInvariant.

Lemma NextToken_input l :
  lexer.input (snd (lexer.NextToken l)) = lexer.input l.
Proof.
  destruct (readWhile_advances lexer.isWhitespace (lexer.bound l) l) as [_ Hi].
  fold (lexer.skipWhitespace l) in Hi.
  destruct (NextToken_shape l) as [H|[H|[H|[[_ H]|[_ H]]]]]; rewrite H;
    rewrite ?input_readChar; try exact Hi.
  - unfold lexer.readString. cbn [snd].
    destruct (readString_loop_advances (lexer.bound (lexer.skipWhitespace l))
                (lexer.skipWhitespace l)) as (_ & H2 & _). congruence.
  - unfold lexer.readIdentifier. cbn [snd].
    destruct (readWhile_advances lexer.isLetter (lexer.bound (lexer.skipWhitespace l))
                (lexer.skipWhitespace l)) as [_ H2]. congruence.
  - unfold lexer.readNumber. cbn [snd].
    destruct (readWhile_advances lexer.isDigit (lexer.bound (lexer.skipWhitespace l))
                (lexer.skipWhitespace l)) as [_ H2]. congruence.
Qed.

(** X18: every call of [NextToken] moves the read position forward by at
    least one and leaves the input text as it is: asking for tokens again
    and again walks through the input and cannot stay in place. *)
Theorem NextToken_makes_progress :
  forall l,
    lexer.readPosition l < lexer.readPosition (snd (lexer.NextToken l))
    /\ lexer.input (snd (lexer.NextToken l)) = lexer.input l.
Proof.
  intros l.
  destruct (readWhile_advances lexer.isWhitespace (lexer.bound l) l) as [Hw Hi].
  fold (lexer.skipWhitespace l) in Hw, Hi.
  destruct (NextToken_shape l) as [H|[H|[H|[[Hc H]|[Hc H]]]]]; rewrite H;
    rewrite ?readPosition_readChar, ?input_readChar.
  - split; [lia | exact Hi].
  - split; [lia | exact Hi].
  - unfold lexer.readString. cbn [snd].
    destruct (readString_loop_advances (lexer.bound (lexer.skipWhitespace l))
                (lexer.skipWhitespace l)) as (H1 & H2 & _).
    split; [lia | congruence].
  - unfold lexer.readIdentifier, lexer.bound. cbn [snd].
    pose proof (readWhile_advances_strictly lexer.isLetter
                  (String.length (lexer.input (lexer.skipWhitespace l)))
                  (lexer.skipWhitespace l) Hc) as H1.
    destruct (readWhile_advances lexer.isLetter
                (S (String.length (lexer.input (lexer.skipWhitespace l))))
                (lexer.skipWhitespace l)) as [_ H2].
    split; [lia | congruence].
  - unfold lexer.readNumber, lexer.bound. cbn [snd].
    pose proof (readWhile_advances_strictly lexer.isDigit
                  (String.length (lexer.input (lexer.skipWhitespace l)))
                  (lexer.skipWhitespace l) Hc) as H1.
    destruct (readWhile_advances lexer.isDigit
                (S (String.length (lexer.input (lexer.skipWhitespace l))))
                (lexer.skipWhitespace l)) as [_ H2].
    split; [lia | congruence].
Qed.

(** X19: a lexer made by [New] is in the state [lexer_wf] describes, and
    [NextToken] keeps a lexer in it: the position trails the read
    position by one, and the current byte is the input's byte at the
    position, or zero past the end. *)
Theorem NextToken_keeps_the_lexer_in_step :
  (forall inp, lexer_wf (lexer.New inp))
  /\ (forall l, lexer_wf l -> lexer_wf (snd (lexer.NextToken l))).
Proof.
  split; [apply wf_New|].
  intros l Hwf.
  assert (H1 : lexer_wf (lexer.skipWhitespace l)) by (apply wf_readWhile, Hwf).
  pose proof (wf_readPosition _ H1) as Hp.
  destruct (NextToken_shape l) as [H|[H|[H|[[Hc H]|[Hc H]]]]]; rewrite H.
  - apply wf_readChar, Hp.
  - apply wf_readChar. rewrite readPosition_readChar. lia.
  - apply wf_readChar. unfold lexer.readString. cbn [snd].
    destruct (readString_loop_advances (lexer.bound (lexer.skipWhitespace l))
                (lexer.skipWhitespace l)) as (H2 & _ & _). lia.
  - unfold lexer.readIdentifier. cbn [snd]. apply wf_readWhile, H1.
  - unfold lexer.readNumber. cbn [snd]. apply wf_readWhile, H1.
Qed.

Lemma NextToken_keeps_the_lexer_in_step_witness :
  lexer_wf (snd (lexer.NextToken (lexer.New "let x = 5;"))).
Proof.
  apply (proj2 NextToken_keeps_the_lexer_in_step (lexer.New "let x = 5;")).
  apply (proj1 NextToken_keeps_the_lexer_in_step).
Defined.

(** X20: once the position has reached the end of the input, every further
    call of [NextToken] returns the EOF token with the empty literal. *)
Theorem end_of_input_is_EOF_for_ever :
  forall n l,
    lexer_wf l ->
    lexer.len (lexer.input l) <= lexer.position l ->
    lexer.tokens n l = repeat {| token.Type_ := token.EOF; token.Literal := "" |} n.
Proof.
  induction n as [|n IH]; intros l Hwf Hend; [reflexivity|].
  assert (Hch : lexer.ch l = zero).
  { destruct Hwf as (_ & _ & Hc). rewrite Hc.
    destruct (Z.leb_spec (lexer.len (lexer.input l)) (lexer.position l));
      [reflexivity | lia]. }
  assert (Hskip : lexer.skipWhitespace l = l)
    by (apply readWhile_stop; rewrite Hch; reflexivity).
  assert (Hnext : lexer.NextToken l
                  = ({| token.Type_ := token.EOF; token.Literal := "" |},
                     lexer.readChar l)).
  { unfold lexer.NextToken. rewrite Hskip. cbv zeta. rewrite Hch. reflexivity. }
  simpl. rewrite Hnext. f_equal. apply IH.
  - apply wf_readChar, wf_readPosition, Hwf.
  - destruct Hwf as (_ & Hrp & _). rewrite input_readChar.
    change (lexer.position (lexer.readChar l)) with (lexer.readPosition l). lia.
Qed.

Lemma end_of_input_is_EOF_for_ever_witness :
  lexer.tokens 3 (lexer.New "")
  = repeat {| token.Type_ := token.EOF; token.Literal := "" |} 3.
Proof.
  apply end_of_input_is_EOF_for_ever.
  - apply wf_New.
  - vm_compute. discriminate.
Defined.



(** ** The literal of a number and of an identifier *)

Section Literals.
Import lexer.

Lemma get_is_Some s : forall n,
  (n < String.length s)%nat -> exists c, String.get n s = Some c.
Proof.
  induction s as [|c s IH]; intros n H; simpl in *; [lia|].
  destruct n as [|n]; [eauto | apply IH; lia].
Qed.

(** In the state of [lexer_wf], a current byte that is not zero is the
    byte of the input at the position, which lies within the input. *)
Lemma current_byte_in_input cond l :
  cond zero = false ->
  lexer_wf l ->
  cond (ch l) = true ->
  position l < len (input l)
  /\ String.get (Z.to_nat (position l)) (input l) = Some (ch l).
Proof.
  intros H0 (Hp & _ & Hc) Ht.
  destruct (Z.leb_spec (len (input l)) (position l)) as [Hend|Hin].
  - rewrite Hc, H0 in Ht. discriminate.
  - split; [exact Hin|]. rewrite Hc. unfold byte_at.
    destruct (get_is_Some (input l) (Z.to_nat (position l))) as [c Hg];
      [unfold len in Hin; lia|].
    rewrite Hg. reflexivity.
Qed.

(** The bytes a reading loop has passed over all satisfy its condition. *)
Lemma readWhile_span cond :
  cond zero = false ->
  forall n l, lexer_wf l ->
    forall i, position l <= i < position (readWhile cond n l) ->
      exists c, String.get (Z.to_nat i) (input l) = Some c /\ cond c = true.
Proof.
  intros H0. induction n as [|n IH]; intros l Hwf i Hi.
  - rewrite (readWhile_stop cond 0 l) in Hi by
        (destruct (cond (ch l)) eqn:C; [|reflexivity]; simpl in Hi; rewrite C in Hi; lia).
    lia.
  - simpl in Hi. destruct (cond (ch l)) eqn:C; [|lia].
    destruct (Z.eq_dec i (position l)) as [->|Hne].
    + destruct (current_byte_in_input cond l H0 Hwf C) as [_ Hg]. eauto.
    + destruct Hwf as (Hp & Hrp & Hc).
      destruct (IH (readChar l) (wf_readChar l ltac:(lia)) i) as (c & Hg & Hcc).
      * change (position (readChar l)) with (readPosition l). lia.
      * exists c. split; [exact Hg | exact Hcc].
Qed.

(** The position a reading loop ends at is past the one it started at
    when the condition holds of the first byte. *)
Lemma readWhile_position cond n l :
  lexer_wf l ->
  cond (ch l) = true ->
  position l < position (readWhile cond (S n) l).
Proof.
  intros Hwf C.
  pose proof (readWhile_advances_strictly cond n l C) as H.
  pose proof (wf_readWhile cond (S n) l Hwf) as (_ & Hrp' & _).
  destruct Hwf as (_ & Hrp & _). lia.
Qed.

(** The text between the start and the end of a reading loop: its bytes
    satisfy the condition and the first of them is the current byte. *)
Lemma readWhile_slice cond n l :
  cond zero = false ->
  lexer_wf l ->
  cond (ch l) = true ->
  String.get 0 (slice (input l) (position l) (position (readWhile cond (S n) l)))
  = Some (ch l)
  /\ forall j c,
       String.get j (slice (input l) (position l) (position (readWhile cond (S n) l)))
       = Some c ->
       cond c = true.
Proof.
  intros H0 Hwf C.
  pose proof (readWhile_position cond n l Hwf C) as Hlt.
  destruct (current_byte_in_input cond l H0 Hwf C) as [_ Hg].
  pose proof Hwf as (Hp & _ & _).
  unfold slice. split.
  - rewrite substring_correct1 by lia. exact Hg.
  - intros j c Hj.
    destruct (Nat.lt_ge_cases j
                (Z.to_nat (position (readWhile cond (S n) l) - position l))) as [Hjm|Hjm].
    + rewrite substring_correct1 in Hj by exact Hjm.
      destruct (readWhile_span cond H0 (S n) l Hwf (position l + Z.of_nat j))
        as (c' & Hg' & Hc'); [lia|].
      replace (Z.to_nat (position l + Z.of_nat j)) with (j + Z.to_nat (position l))%nat
        in Hg' by lia.
      congruence.
    + rewrite substring_correct2 in Hj by exact Hjm. discriminate.
Qed.

Lemma digit_is_nothing_else c :
  isDigit c = true ->
  isLetter c = false /\ isWhitespace c = false
  /\ existsb (Ascii.eqb c)
       ["="; ";"; "("; ")"; ","; "+"; "{"; "}"; "-"; "/"; "*"; ">"; "<"; "!";
        zero; dquote; "["; "]"]%char = false.
Proof.
  destruct c as [[] [] [] [] [] [] [] []]; intros H;
    try discriminate H; repeat split; reflexivity.
Qed.

Lemma letter_is_nothing_else c :
  isLetter c = true ->
  isWhitespace c = false
  /\ existsb (Ascii.eqb c)
       ["="; ";"; "("; ")"; ","; "+"; "{"; "}"; "-"; "/"; "*"; ">"; "<"; "!";
        zero; dquote; "["; "]"]%char = false.
Proof.
  destruct c as [[] [] [] [] [] [] [] []]; intros H;
    try discriminate H; repeat split; reflexivity.
Qed.

Lemma NextToken_number l :
  isDigit (ch (skipWhitespace l)) = true ->
  NextToken l
  = ({| token.Type_ := token.INT; token.Literal := fst (readNumber (skipWhitespace l)) |},
     snd (readNumber (skipWhitespace l))).
Proof.
  intros H. destruct (digit_is_nothing_else _ H) as (HL & _ & HE).
  simpl in HE. rewrite ?orb_false_r in HE.
  repeat (apply orb_false_elim in HE; destruct HE as [? HE]).
  unfold NextToken. cbv zeta.
  repeat match goal with
         | E : Ascii.eqb ?a ?b = false |- context [Ascii.eqb ?a ?b] => rewrite E
         end.
  rewrite HL, H. destruct (readNumber _). reflexivity.
Qed.

Lemma NextToken_identifier l :
  isLetter (ch (skipWhitespace l)) = true ->
  NextToken l
  = ({| token.Type_ := token.LookupIdent (fst (readIdentifier (skipWhitespace l)));
        token.Literal := fst (readIdentifier (skipWhitespace l)) |},
     snd (readIdentifier (skipWhitespace l))).
Proof.
  intros H. destruct (letter_is_nothing_else _ H) as (_ & HE).
  simpl in HE. rewrite ?orb_false_r in HE.
  repeat (apply orb_false_elim in HE; destruct HE as [? HE]).
  unfold NextToken. cbv zeta.
  repeat match goal with
         | E : Ascii.eqb ?a ?b = false |- context [Ascii.eqb ?a ?b] => rewrite E
         end.
  rewrite H. destruct (readIdentifier _). reflexivity.
Qed.

End Literals.

(** X22: when the first byte after the white space is a digit, [NextToken]
    returns an INT token whose literal starts with that digit and holds
    digits only: the literal handed to the parser's integer conversion is
    a non-empty run of decimal digits. *)
Theorem number_token_is_a_digit_run :
  forall l,
    lexer_wf l ->
    lexer.isDigit (lexer.ch (lexer.skipWhitespace l)) = true ->
    token.Type_ (fst (lexer.NextToken l)) = token.INT
    /\ String.get 0 (token.Literal (fst (lexer.NextToken l)))
       = Some (lexer.ch (lexer.skipWhitespace l))
    /\ (forall j c, String.get j (token.Literal (fst (lexer.NextToken l))) = Some c ->
                    lexer.isDigit c = true)
    /\ lexer.isDigit (lexer.ch (snd (lexer.NextToken l))) = false.
Proof.
  intros l Hwf H.
  assert (H1 : lexer_wf (lexer.skipWhitespace l)) by (apply wf_readWhile, Hwf).
  rewrite (NextToken_number l H). cbn [fst snd token.Type_ token.Literal].
  split; [reflexivity|].
  destruct (readWhile_slice lexer.isDigit
              (String.length (lexer.input (lexer.skipWhitespace l)))
              (lexer.skipWhitespace l) eq_refl H1 H) as [Hfirst Hall].
  destruct (readWhile_advances lexer.isDigit
              (S (String.length (lexer.input (lexer.skipWhitespace l))))
              (lexer.skipWhitespace l)) as [_ Hin].
  unfold lexer.readNumber, lexer.bound. cbn [fst snd]. rewrite Hin.
  split; [exact Hfirst|]. split; [exact Hall|].
  apply (readNumber_done (lexer.skipWhitespace l)), wf_readPosition, H1.
Qed.

Lemma number_token_is_a_digit_run_witness :
  token.Type_ (fst (lexer.NextToken (lexer.New " 42;"))) = token.INT.
Proof.
  apply (number_token_is_a_digit_run (lexer.New " 42;")).
  - apply wf_New.
  - reflexivity.
Defined.

(** X23: when the first byte after the white space is a letter or an
    underscore, [NextToken] returns a token whose literal starts with
    that byte and holds letters and underscores only, and whose kind is
    the keyword kind of the literal, or IDENTIFIER when the literal is no
    keyword. *)
Theorem identifier_token_is_a_letter_run :
  forall l,
    lexer_wf l ->
    lexer.isLetter (lexer.ch (lexer.skipWhitespace l)) = true ->
    token.Type_ (fst (lexer.NextToken l))
    = token.LookupIdent (token.Literal (fst (lexer.NextToken l)))
    /\ String.get 0 (token.Literal (fst (lexer.NextToken l)))
       = Some (lexer.ch (lexer.skipWhitespace l))
    /\ (forall j c, String.get j (token.Literal (fst (lexer.NextToken l))) = Some c ->
                    lexer.isLetter c = true)
    /\ lexer.isLetter (lexer.ch (snd (lexer.NextToken l))) = false.
Proof.
  intros l Hwf H.
  assert (H1 : lexer_wf (lexer.skipWhitespace l)) by (apply wf_readWhile, Hwf).
  rewrite (NextToken_identifier l H). cbn [fst snd token.Type_ token.Literal].
  split; [reflexivity|].
  destruct (readWhile_slice lexer.isLetter
              (String.length (lexer.input (lexer.skipWhitespace l)))
              (lexer.skipWhitespace l) eq_refl H1 H) as [Hfirst Hall].
  destruct (readWhile_advances lexer.isLetter
              (S (String.length (lexer.input (lexer.skipWhitespace l))))
              (lexer.skipWhitespace l)) as [_ Hin].
  unfold lexer.readIdentifier, lexer.bound. cbn [fst snd]. rewrite Hin.
  split; [exact Hfirst|]. split; [exact Hall|].
  apply (readIdentifier_done (lexer.skipWhitespace l)), wf_readPosition, H1.
Qed.

Lemma identifier_token_is_a_letter_run_witness :
  token.Type_ (fst (lexer.NextToken (lexer.New "return x")))
  = token.LookupIdent (token.Literal (fst (lexer.NextToken (lexer.New "return x")))).
Proof.
  apply (identifier_token_is_a_letter_run (lexer.New "return x")).
  - apply wf_New.
  - reflexivity.
Defined.

(* ===================================================================== *)
(** * Further properties of the parser *)
(* ===================================================================== *)

(** What every parser method respects: the errors recorded before the
    call are still there after it, in front of the new ones, and the
    lexer still reads the same input. *)
Definition keeps (p p' : parser.Parser) : Prop :=
  parser.errors p `prefix_of` parser.errors p'
  /\ lexer.input (parser.l p') = lexer.input (parser.l p).

Definition grows {A} (m : parser.P A) : Prop :=
  forall p a p', m p = Some (a, p') -> keeps p p'.

Section ParserErrors.
Import parser.

Lemma keeps_refl p : keeps p p.
Proof. split; reflexivity. Qed.

Lemma keeps_trans p q r : keeps p q -> keeps q r -> keeps p r.
Proof. intros [H1 H2] [H3 H4]. split; [etransitivity; eassumption | congruence]. Qed.

Lemma grows_ret {A} (a : A) : grows (mret a).
Proof. intros p x p' H. inversion H; subst. apply keeps_refl. Qed.

Lemma grows_bind {A B} (m : P A) (f : A -> P B) :
  grows m -> (forall a, grows (f a)) -> grows (m ≫= f).
Proof.
  intros Hm Hf p b p' H. unfold mbind, P_bind in H.
  destruct (m p) as [[a q]|] eqn:E; [|discriminate].
  eapply keeps_trans; [eapply Hm, E | eapply Hf, H].
Qed.

Lemma grows_fmap {A B} (f : A -> B) (m : P A) : grows m -> grows (f <$> m).
Proof.
  intros Hm p b p' H. unfold fmap, P_fmap in H.
  destruct (m p) as [[a q]|] eqn:E; [|discriminate].
  inversion H; subst. eapply Hm, E.
Qed.

Lemma grows_get : grows get.
Proof. intros p x p' H. inversion H; subst. apply keeps_refl. Qed.

Lemma grows_out_of_fuel {A} : grows (@out_of_fuel A).
Proof. intros p x p' H. discriminate. Qed.

Lemma grows_nextToken : grows nextToken.
Proof.
  intros p x p' H. unfold nextToken in H.
  destruct (lexer.NextToken (l p)) as [tok l'] eqn:E. inversion H; subst.
  split; [reflexivity | simpl].
  pose proof (NextToken_input (l p)) as Hi. rewrite E in Hi. exact Hi.
Qed.

Lemma grows_addError msg : grows (addError msg).
Proof.
  intros p x p' H. inversion H; subst. split; simpl; [|reflexivity].
  apply prefix_app_r. reflexivity.
Qed.

Create HintDb grows.

#[local] Hint Resolve grows_ret grows_get grows_out_of_fuel grows_nextToken
  grows_addError grows_fmap : grows.
#[local] Hint Extern 1 (grows (mbind _ _)) => apply grows_bind; [|intros ?] : grows.
#[local] Hint Extern 2 (grows (if ?b then _ else _)) => destruct b : grows.
#[local] Hint Extern 2 (grows (match ?x with _ => _ end)) => destruct x : grows.

Ltac grow := auto 40 with grows.

Lemma grows_curTokenIs t : grows (curTokenIs t).
Proof. unfold curTokenIs. grow. Qed.

Lemma grows_peekTokenIs t : grows (peekTokenIs t).
Proof. unfold peekTokenIs. grow. Qed.

Lemma grows_PeekError t : grows (PeekError t).
Proof. unfold PeekError. grow. Qed.

#[local] Hint Resolve grows_curTokenIs grows_peekTokenIs grows_PeekError : grows.

Lemma grows_expectPeek t : grows (expectPeek t).
Proof. unfold expectPeek. grow. Qed.

Lemma grows_noPrefixParseFnError t : grows (noPrefixParseFnError t).
Proof. unfold noPrefixParseFnError. grow. Qed.

Lemma grows_peekPrecedence : grows peekPrecedence.
Proof. unfold peekPrecedence. grow. Qed.

Lemma grows_curPrecedence : grows curPrecedence.
Proof. unfold curPrecedence. grow. Qed.

Lemma grows_parseBoolean : grows parseBoolean.
Proof. unfold parseBoolean. grow. Qed.

Lemma grows_parseIntegerLiteral : grows parseIntegerLiteral.
Proof. unfold parseIntegerLiteral. grow. Qed.

Lemma grows_parseIdentifier : grows parseIdentifier.
Proof. unfold parseIdentifier. grow. Qed.

Lemma grows_parseStringLiteral : grows parseStringLiteral.
Proof. unfold parseStringLiteral. grow. Qed.

#[local] Hint Resolve grows_expectPeek grows_noPrefixParseFnError grows_peekPrecedence
  grows_curPrecedence grows_parseBoolean grows_parseIntegerLiteral
  grows_parseIdentifier grows_parseStringLiteral : grows.

Section Methods.
Variable pe : Z -> P ast.Expression.
Variable ps : P (option ast.Statement).
Variable n : nat.
Hypothesis Hpe : forall prec, grows (pe prec).
Hypothesis Hps : grows ps.

#[local] Hint Resolve Hpe Hps : grows.

Lemma grows_parseExpreesionStatement : grows (parseExpreesionStatement pe).
Proof. unfold parseExpreesionStatement. grow. Qed.

Lemma grows_parseReturnStatement : grows (parseReturnStatement pe).
Proof. unfold parseReturnStatement. grow. Qed.

Lemma grows_parseLetStatement : grows (parseLetStatement pe).
Proof. unfold parseLetStatement. grow. Qed.

Lemma grows_parseExpressionList_loop k : forall acc,
  grows (parseExpressionList_loop pe k acc).
Proof. induction k as [|k IH]; intros acc; simpl; grow. Qed.

#[local] Hint Resolve grows_parseExpressionList_loop : grows.

Lemma grows_parseExpressionList t : grows (parseExpressionList pe n t).
Proof. unfold parseExpressionList. grow. Qed.

#[local] Hint Resolve grows_parseExpressionList : grows.

Lemma grows_parseCallExpression f : grows (parseCallExpression pe n f).
Proof. unfold parseCallExpression. grow. Qed.

Lemma grows_parseArrayExpression : grows (parseArrayExpression pe n).
Proof. unfold parseArrayExpression. grow. Qed.

Lemma grows_parseIndexExpression e : grows (parseIndexExpression pe e).
Proof. unfold parseIndexExpression. grow. Qed.

Lemma grows_parseHashExpression_loop k : forall pairs,
  grows (parseHashExpression_loop pe k pairs).
Proof. induction k as [|k IH]; intros pairs; simpl; grow. Qed.

#[local] Hint Resolve grows_parseHashExpression_loop : grows.

Lemma grows_parseHashExpression : grows (parseHashExpression pe n).
Proof. unfold parseHashExpression. grow. Qed.

Lemma grows_parseFunctionParameters_loop k : forall idents,
  grows (parseFunctionParameters_loop k idents).
Proof. induction k as [|k IH]; intros idents; simpl; grow. Qed.

#[local] Hint Resolve grows_parseFunctionParameters_loop : grows.

Lemma grows_parseFunctionParameters : grows (parseFunctionParameters n).
Proof. unfold parseFunctionParameters. grow. Qed.

Lemma grows_parseBlockStatement_loop k : forall stmts,
  grows (parseBlockStatement_loop ps k stmts).
Proof. induction k as [|k IH]; intros stmts; simpl; grow. Qed.

#[local] Hint Resolve grows_parseBlockStatement_loop grows_parseFunctionParameters : grows.

Lemma grows_parseBlockStatement : grows (parseBlockStatement ps n).
Proof. unfold parseBlockStatement. grow. Qed.

#[local] Hint Resolve grows_parseBlockStatement : grows.

Lemma grows_parseFunction : grows (parseFunction ps n).
Proof. unfold parseFunction. grow. Qed.

Lemma grows_parseIfExpression : grows (parseIfExpression pe ps n).
Proof. unfold parseIfExpression. grow. Qed.

Lemma grows_parseGroupExpressions : grows (parseGroupExpressions pe).
Proof. unfold parseGroupExpressions. grow. Qed.

Lemma grows_parseInfixExpression e : grows (parseInfixExpression pe e).
Proof. unfold parseInfixExpression. grow. Qed.

Lemma grows_parsePrefixExpression : grows (parsePrefixExpression pe).
Proof. unfold parsePrefixExpression. grow. Qed.

#[local] Hint Resolve grows_parseCallExpression grows_parseArrayExpression
  grows_parseIndexExpression grows_parseHashExpression grows_parseFunction
  grows_parseIfExpression grows_parseGroupExpressions grows_parseInfixExpression
  grows_parsePrefixExpression grows_parseExpreesionStatement
  grows_parseReturnStatement grows_parseLetStatement : grows.

(** Every function registered in the two dispatch tables. *)
Lemma grows_prefixParseFns t f :
  prefixParseFns pe ps n !! t = Some f -> grows f.
Proof.
  unfold prefixParseFns. intros H. apply elem_of_list_to_map_2 in H.
  repeat (apply elem_of_cons in H; destruct H as [H|H];
          [inversion H; subst; grow|]).
  apply elem_of_nil in H. contradiction.
Qed.

Lemma grows_infixParseFns t f :
  infixParseFns pe n !! t = Some f -> forall e, grows (f e).
Proof.
  unfold infixParseFns. intros H. apply elem_of_list_to_map_2 in H.
  repeat (apply elem_of_cons in H; destruct H as [H|H];
          [inversion H; subst; grow|]).
  apply elem_of_nil in H. contradiction.
Qed.

Lemma grows_parseExpression_loop k : forall prec e,
  grows (parseExpression_loop pe n k prec e).
Proof.
  induction k as [|k IH]; intros prec e; simpl.
  - apply grows_bind; [grow|intros b]. apply grows_bind; [grow|intros pp].
    destruct (negb b && (prec <? pp)); [|grow].
    apply grows_bind; [grow|intros q].
    destruct (infixParseFns pe n !! token.Type_ (peakToken q)); grow.
  - apply grows_bind; [grow|intros b]. apply grows_bind; [grow|intros pp].
    destruct (negb b && (prec <? pp)); [|grow].
    apply grows_bind; [grow|intros q].
    destruct (infixParseFns pe n !! token.Type_ (peakToken q)) as [f|] eqn:E; [|grow].
    apply grows_bind; [grow|intros _].
    apply grows_bind; [apply (grows_infixParseFns _ _ E)|intros e']. apply IH.
Qed.

Lemma grows_parseExpression_body prec : grows (parseExpression_body pe ps n prec).
Proof.
  unfold parseExpression_body. apply grows_bind; [grow|intros q].
  destruct (prefixParseFns pe ps n !! token.Type_ (curToken q)) as [f|] eqn:E; [|grow].
  apply grows_bind; [apply (grows_prefixParseFns _ _ E)|intros e].
  apply grows_parseExpression_loop.
Qed.

Lemma grows_parseStatement_body : grows (parseStatement_body pe).
Proof. unfold parseStatement_body. grow. Qed.

End Methods.

Lemma grows_parseExpression_parseStatement fuel :
  (forall prec, grows (parseExpression fuel prec)) /\ grows (parseStatement fuel).
Proof.
  induction fuel as [|f [IHe IHs]]; simpl.
  - split; intros; apply grows_out_of_fuel.
  - split; intros.
    + apply grows_parseExpression_body; assumption.
    + apply grows_parseStatement_body; assumption.
Qed.

Lemma grows_ParseProgram_loop fuel : forall stmts, grows (ParseProgram_loop fuel stmts).
Proof.
  induction fuel as [|f IH]; intros stmts; simpl.
  - apply grows_bind; [apply grows_get|intros q].
    destruct (negb _); [apply grows_out_of_fuel | apply grows_ret].
  - apply grows_bind; [apply grows_get|intros q].
    destruct (negb _); [|apply grows_ret].
    apply grows_bind; [apply (grows_parseExpression_parseStatement (S f))|intros s].
    apply grows_bind; [apply grows_nextToken|intros _]. apply IH.
Qed.

End ParserErrors.

(** X24: the parser only ever adds to its list of errors and never touches
    the lexer's input: after parsing an expression, a statement or a
    whole program, the errors recorded before are still there, in front
    of the new ones. *)
Theorem parser_errors_accumulate :
  forall fuel p,
    (forall prec e p', parser.parseExpression fuel prec p = Some (e, p') -> keeps p p')
    /\ (forall s p', parser.parseStatement fuel p = Some (s, p') -> keeps p p')
    /\ (forall prog p', parser.ParseProgram fuel p = Some (prog, p') -> keeps p p').
Proof.
  intros fuel p. destruct (grows_parseExpression_parseStatement fuel) as [He Hs].
  split; [|split].
  - intros prec e p' H. exact (He prec p e p' H).
  - intros s p' H. exact (Hs p s p' H).
  - intros prog p' H. unfold parser.ParseProgram in H.
    refine (grows_bind _ _ (grows_ParseProgram_loop fuel []) _ p prog p' H).
    intros a. apply grows_ret.
Qed.

(** On [let = 5; 08]: the parser is made, the program is parsed, and the
    errors the parser held before (none) are in front of the errors it
    holds after. *)
Lemma parser_errors_accumulate_witness :
  match parser.New (lexer.New "let = 5; 08") with
  | Some p1 =>
      match parser.ParseProgram 20 p1 with
      | Some (_, p2) => keeps p1 p2
      | None => False
      end
  | None => False
  end.
Proof.
  destruct (parser.New (lexer.New "let = 5; 08")) as [p1|] eqn:E1;
    [|vm_compute in E1; discriminate].
  vm_compute in E1. injection E1 as <-.
  match goal with
  | |- match ?m with _ => _ end => destruct m as [[s p2]|] eqn:E2
  end.
  - exact (proj2 (proj2 (parser_errors_accumulate 20%nat _)) s p2 E2).
  - vm_compute in E2. discriminate.
Defined.

(* ===================================================================== *)
(** * Binding and resolving a name *)
(* ===================================================================== *)

(** X25: a [let] whose value evaluates to an object that is no Error returns
    nil and binds the name in the environment it runs in: from then on
    the identifier evaluates to that object there, also when a builtin
    has the same name, since the environment is asked first. *)
Theorem let_binds_the_value :
  forall fuel name Value (env : object.envref) st v st1 En,
    Eval fuel (ast.NodeExpression Value) env st = Ok v st1 ->
    isError v = false ->
    envs st1 !! env = Some En ->
    exists st2,
      Eval (S fuel) (ast.NodeStatement (ast.LetStatement name Value)) env st
      = Ok object.Nil st2
      /\ next st2 = next st1
      /\ forall fuel',
           Eval (S fuel') (ast.NodeExpression (ast.Ident name)) env st2 = Ok v st2.
Proof.
  intros fuel name V env st v st1 En H Herr He.
  pose (E1 := {| object.store := <[ast.Value name := v]> (object.store En);
                 object.outer := object.outer En |}).
  exists {| envs := <[env := E1]> (envs st1); next := next st1; printed := printed st1 |}.
  split; [|split; [reflexivity|]].
  - simpl. unmonad. rewrite H, Herr. unfold Set_, object.Set_in.
    unfold object.envref in *. rewrite He. reflexivity.
  - intros fuel'. simpl. unfold evalIdentifier. unmonad.
    rewrite (Get_own env (ast.Value name) _ E1 v); [reflexivity | | ].
    + simpl. apply list_lookup_insert_eq. apply lookup_lt_Some in He. exact He.
    + simpl. apply lookup_insert_eq.
Qed.

(** On [let len = 5;]: afterwards [len] is the Integer and not the
    builtin. *)
Lemma let_binds_the_value_witness :
  exists st2,
    Eval 3 (ast.NodeStatement
              (ast.LetStatement (ast.mkIdentifier "len") (ast.IntegerLiteral 5))) 0%nat
         {| envs := [object.mkEnviroment ∅ None]; next := 9%nat; printed := [] |}
    = Ok object.Nil st2
    /\ Eval 1 (ast.NodeExpression (ast.Ident (ast.mkIdentifier "len"))) 0%nat st2
       = Ok (object.Integer 9%nat 5) st2.
Proof.
  destruct (let_binds_the_value 2%nat (ast.mkIdentifier "len") (ast.IntegerLiteral 5)
              0%nat
              {| envs := [object.mkEnviroment ∅ None]; next := 9%nat; printed := [] |}
              (object.Integer 9%nat 5)
              {| envs := [object.mkEnviroment ∅ None]; next := 10%nat; printed := [] |}
              (object.mkEnviroment ∅ None))
    as (st2 & Hlet & _ & Hid).
  - reflexivity.
  - reflexivity.
  - reflexivity.
  - exists st2. split; [exact Hlet | apply (Hid 0%nat)].
Defined.

(* ===================================================================== *)
(** * Where a ReturnValue is unwrapped *)
(* ===================================================================== *)

Section OtherCases.
Variable fuel : nat.

Lemma Eval_ExpressionStatement e env st :
  Eval (S fuel) (ast.NodeStatement (ast.ExpressionStatement e)) env st
  = Eval fuel (ast.NodeExpression e) env st.
Proof. reflexivity. Qed.

Lemma Eval_IfExpression Condition Consequence Alternatives env st res st1 :
  Eval fuel (ast.NodeExpression Condition) env st = Ok res st1 ->
  res <> object.Nil ->
  isError res = false ->
  Eval (S fuel)
    (ast.NodeExpression (ast.IfExpression Condition Consequence Alternatives)) env st
  = (if object.same res FALSE
     then match Alternatives with
          | None => Ok NULL st1
          | Some alt => Eval fuel (ast.NodeBlock alt) env st1
          end
     else Eval fuel (ast.NodeBlock Consequence) env st1).
Proof.
  intros H Hnil Herr. simpl. unfold evalIfExpression. unmonad. rewrite H, Herr.
  destruct (object.Type_ res) as [t|] eqn:T.
  - unfold TypeOf. rewrite T. unmonad. rewrite (falsy_test_is_FALSE res t T).
    destruct (object.same res FALSE); [destruct Alternatives|]; reflexivity.
  - destruct res; simpl in T; try discriminate. contradiction.
Qed.

Lemma Eval_ReturnStatement x env st val st1 :
  Eval fuel (ast.NodeExpression x) env st = Ok val st1 ->
  isError val = false ->
  Eval (S fuel) (ast.NodeStatement (ast.ReturnStatement x)) env st
  = Ok (object.ReturnValue (next st1) val) (allocated st1).
Proof. intros H He. simpl. unmonad. rewrite H, He. reflexivity. Qed.

Lemma Eval_LetStatement name x env st val st1 :
  Eval fuel (ast.NodeExpression x) env st = Ok val st1 ->
  isError val = false ->
  Eval (S fuel) (ast.NodeStatement (ast.LetStatement name x)) env st
  = (Set_ env (ast.Value name) val ;; mret object.Nil) st1.
Proof. intros H He. simpl. unmonad. rewrite H, He. reflexivity. Qed.

Lemma Eval_Identifier i env st val :
  Get env (ast.Value i) st = Ok (Some val) st ->
  Eval (S fuel) (ast.NodeExpression (ast.Ident i)) env st = Ok val st.
Proof. intros H. simpl. unfold evalIdentifier. unmonad. rewrite H. reflexivity. Qed.

Lemma Eval_PrefixExpression op x env st val st1 :
  Eval fuel (ast.NodeExpression x) env st = Ok val st1 ->
  isError val = false ->
  Eval (S fuel) (ast.NodeExpression (ast.PrefixExpression op x)) env st
  = evalPrefixExpressions op val st1.
Proof. intros H He. simpl. unmonad. rewrite H, He. reflexivity. Qed.

Lemma Eval_InfixExpression op x y env st left st1 right st2 :
  Eval fuel (ast.NodeExpression x) env st = Ok left st1 ->
  isError left = false ->
  Eval fuel (ast.NodeExpression y) env st1 = Ok right st2 ->
  isError right = false ->
  Eval (S fuel) (ast.NodeExpression (ast.InfixExpression op x y)) env st
  = evalInfixExpression op right left st2.
Proof. intros Hx Hl Hy Hr. simpl. unmonad. rewrite Hx, Hl, Hy, Hr. reflexivity. Qed.

Lemma Eval_Array Items env st es st1 :
  evaluated_in_order (Eval fuel) env Items st es st1 ->
  Eval (S fuel) (ast.NodeExpression (ast.Array Items)) env st
  = Ok (object.Array (next st1) es) (allocated st1).
Proof.
  intros H. simpl. unmonad. unfold evalExpressions.
  rewrite (evalExpressions_loop_values _ _ _ _ _ _ H []). simpl.
  destruct (evaluated_in_order_length _ _ _ _ _ _ H) as [_ Hf].
  destruct es as [|e [|e' es]]; try reflexivity.
  inversion Hf as [|? ? Hne _]; subst. unfold not_error in Hne. rewrite Hne.
  reflexivity.
Qed.

Lemma Eval_CallExpression Function_ Arguments env st fn st1 params st2 :
  Eval fuel (ast.NodeExpression Function_) env st = Ok fn st1 ->
  isError fn = false ->
  evaluated_in_order (Eval fuel) env Arguments st1 params st2 ->
  Eval (S fuel) (ast.NodeExpression (ast.CallExpression Function_ Arguments)) env st
  = applyFunction (Eval fuel) fn params st2.
Proof.
  intros Hf He H. simpl. unmonad. rewrite Hf, He. unfold evalExpressions.
  rewrite (evalExpressions_loop_values _ _ _ _ _ _ H []). simpl.
  destruct (evaluated_in_order_length _ _ _ _ _ _ H) as [_ Hne].
  destruct params as [|e [|e' params]]; try reflexivity.
  inversion Hne as [|? ? Hn _]; subst. unfold not_error in Hn. rewrite Hn.
  reflexivity.
Qed.

(** To the operators a ReturnValue is an operand of the kind RETURN VALUE
    and nothing more: what they return does not depend on the object it
    wraps. *)
Lemma ReturnValue_is_opaque op a v v' o params st :
  evalPrefixExpressions op (object.ReturnValue a v) st
  = evalPrefixExpressions op (object.ReturnValue a v') st
  /\ evalInfixExpression op (object.ReturnValue a v) o st
     = evalInfixExpression op (object.ReturnValue a v') o st
  /\ evalInfixExpression op o (object.ReturnValue a v) st
     = evalInfixExpression op o (object.ReturnValue a v') st
  /\ evalIndexExpression (object.ReturnValue a v) o st
     = evalIndexExpression (object.ReturnValue a v') o st
  /\ evalIndexExpression o (object.ReturnValue a v) st
     = evalIndexExpression o (object.ReturnValue a v') st
  /\ applyFunction (Eval fuel) (object.ReturnValue a v) params st
     = Ok (object.Error (next st) "not a function: RETURN VALUE") (allocated st).
Proof.
  split; [reflexivity|]. split; [reflexivity|].
  split; [destruct o; reflexivity|].
  split; [reflexivity|]. split; [destruct o; reflexivity | reflexivity].
Qed.

End OtherCases.

(** C1 (amended): a ReturnValue is unwrapped in two places, the top-level
    program and the function application, and nowhere else.  When the
    statements before it run through and a statement evaluates to a
    ReturnValue object, a bare block ([evalStatements], and [Eval] on the
    block) returns that very object, while the program ([evalProgram])
    returns the Object wrapped in it; a function application whose body
    evaluates to a ReturnValue returns the wrapped Object too.  Every
    other case of [Eval] leaves a ReturnValue that one of its parts
    evaluated to as it is: an expression statement and an if-expression
    return what their expression or their chosen block returned; a
    [return] wraps it once more; a [let], an array literal and a call
    store or pass it on unchanged, and an identifier returns what is
    bound; the prefix and infix operators, the index operator and the
    call of a callee take it as an operand of the kind RETURN VALUE,
    whatever it wraps.  So a [return] inside nested blocks reaches the
    function boundary: [fn() { if (true) { if (true) { return 10; }
    return 1; } }()] is 10. *)
Theorem C1_return_value_unwrapped_in_two_places :
  (forall fuel pre s rest env st r1 st1 a v st2,
      evalStatements (Eval fuel) pre env st = Ok r1 st1 ->
      stops r1 = false ->
      Eval fuel (ast.NodeStatement s) env st1 = Ok (object.ReturnValue a v) st2 ->
      evalStatements (Eval fuel) (pre ++ s :: rest) env st
      = Ok (object.ReturnValue a v) st2
      /\ Eval (S fuel) (ast.NodeBlock (ast.mkBlock (pre ++ s :: rest))) env st
         = Ok (object.ReturnValue a v) st2
      /\ evalProgram (Eval fuel) {| ast.Statements := pre ++ s :: rest |} env st
         = Ok v st2
      /\ Eval (S fuel) (ast.NodeProgram {| ast.Statements := pre ++ s :: rest |}) env st
         = Ok v st2)
  /\ (forall fuel a0 Parameters Body Env params st a v st2,
         (new_env ← NewEnclosedEnviroment Env;
          bind_parameters Parameters 0%nat params new_env ;;
          Eval fuel (ast.NodeBlock Body) new_env) st
         = Ok (object.ReturnValue a v) st2 ->
         applyFunction (Eval fuel) (object.Function a0 Parameters Body Env) params st
         = Ok v st2)
  /\ (forall fuel e env st,
         Eval (S fuel) (ast.NodeStatement (ast.ExpressionStatement e)) env st
         = Eval fuel (ast.NodeExpression e) env st)
  /\ (forall fuel Condition Consequence Alternatives env st res st1,
         Eval fuel (ast.NodeExpression Condition) env st = Ok res st1 ->
         res <> object.Nil ->
         isError res = false ->
         Eval (S fuel)
           (ast.NodeExpression (ast.IfExpression Condition Consequence Alternatives))
           env st
         = (if object.same res FALSE
            then match Alternatives with
                 | None => Ok NULL st1
                 | Some alt => Eval fuel (ast.NodeBlock alt) env st1
                 end
            else Eval fuel (ast.NodeBlock Consequence) env st1))
  /\ (forall fuel x env st val st1,
         Eval fuel (ast.NodeExpression x) env st = Ok val st1 ->
         isError val = false ->
         Eval (S fuel) (ast.NodeStatement (ast.ReturnStatement x)) env st
         = Ok (object.ReturnValue (next st1) val) (allocated st1))
  /\ (forall fuel name x env st val st1,
         Eval fuel (ast.NodeExpression x) env st = Ok val st1 ->
         isError val = false ->
         Eval (S fuel) (ast.NodeStatement (ast.LetStatement name x)) env st
         = (Set_ env (ast.Value name) val ;; mret object.Nil) st1)
  /\ (forall fuel i env st val,
         Get env (ast.Value i) st = Ok (Some val) st ->
         Eval (S fuel) (ast.NodeExpression (ast.Ident i)) env st = Ok val st)
  /\ (forall fuel op x env st val st1,
         Eval fuel (ast.NodeExpression x) env st = Ok val st1 ->
         isError val = false ->
         Eval (S fuel) (ast.NodeExpression (ast.PrefixExpression op x)) env st
         = evalPrefixExpressions op val st1)
  /\ (forall fuel op x y env st left st1 right st2,
         Eval fuel (ast.NodeExpression x) env st = Ok left st1 ->
         isError left = false ->
         Eval fuel (ast.NodeExpression y) env st1 = Ok right st2 ->
         isError right = false ->
         Eval (S fuel) (ast.NodeExpression (ast.InfixExpression op x y)) env st
         = evalInfixExpression op right left st2)
  /\ (forall fuel x y env st left st1 index st2,
         Eval fuel (ast.NodeExpression x) env st = Ok left st1 ->
         Eval fuel (ast.NodeExpression y) env st1 = Ok index st2 ->
         isError left = false ->
         isError index = false ->
         Eval (S fuel) (ast.NodeExpression (ast.IndexExpression x y)) env st
         = evalIndexExpression left index st2)
  /\ (forall fuel Items env st es st1,
         evaluated_in_order (Eval fuel) env Items st es st1 ->
         Eval (S fuel) (ast.NodeExpression (ast.Array Items)) env st
         = Ok (object.Array (next st1) es) (allocated st1))
  /\ (forall fuel Function_ Arguments env st fn st1 params st2,
         Eval fuel (ast.NodeExpression Function_) env st = Ok fn st1 ->
         isError fn = false ->
         evaluated_in_order (Eval fuel) env Arguments st1 params st2 ->
         Eval (S fuel) (ast.NodeExpression (ast.CallExpression Function_ Arguments))
              env st
         = applyFunction (Eval fuel) fn params st2)
  /\ (forall fuel op a v v' o params st,
         evalPrefixExpressions op (object.ReturnValue a v) st
         = evalPrefixExpressions op (object.ReturnValue a v') st
         /\ evalInfixExpression op (object.ReturnValue a v) o st
            = evalInfixExpression op (object.ReturnValue a v') o st
         /\ evalInfixExpression op o (object.ReturnValue a v) st
            = evalInfixExpression op o (object.ReturnValue a v') st
         /\ evalIndexExpression (object.ReturnValue a v) o st
            = evalIndexExpression (object.ReturnValue a v') o st
         /\ evalIndexExpression o (object.ReturnValue a v) st
            = evalIndexExpression o (object.ReturnValue a v') st
         /\ applyFunction (Eval fuel) (object.ReturnValue a v) params st
            = Ok (object.Error (next st) "not a function: RETURN VALUE")
                 (allocated st))
  /\ (exists a,
         value_of (run 50 "fn() { if (true) { if (true) { return 10; } return 1; } }()")
         = Some ([], inl (object.Integer a 10))).
Proof.
  split.
  { intros fuel pre s rest env st r1 st1 a v st2 H Hs Hr.
    pose proof (evalStatements_return _ pre s rest env st r1 st1 a v st2 H Hs Hr) as HB.
    pose proof (evalProgram_return _ pre s rest env st r1 st1 a v st2 H Hs Hr) as HP.
    split; [exact HB|]. split; [exact HB|]. split; exact HP. }
  split.
  { intros fuel a0 Ps B En params st a v st2 H.
    eapply applyFunction_return. exact H. }
  split; [exact Eval_ExpressionStatement|].
  split; [exact Eval_IfExpression|].
  split; [exact Eval_ReturnStatement|].
  split; [exact Eval_LetStatement|].
  split; [exact Eval_Identifier|].
  split; [exact Eval_PrefixExpression|].
  split; [exact Eval_InfixExpression|].
  split; [exact Eval_IndexExpression|].
  split; [exact Eval_Array|].
  split; [exact Eval_CallExpression|].
  split; [exact ReturnValue_is_opaque|].
  eexists. vm_compute. reflexivity.
Qed.

(** The amended C1 on [let x = 1; return x; 7]: the block yields the
    ReturnValue, the program the Integer; on a call of
    [fn() { return 5; }]; and on the expression statement of an
    if-expression whose block returns. *)
Lemma C1_return_value_unwrapped_in_two_places_witness :
  (evalStatements (Eval 3)
     ([ast.LetStatement (ast.mkIdentifier "x") (ast.IntegerLiteral 1)]
      ++ ast.ReturnStatement (ast.Ident (ast.mkIdentifier "x"))
      :: [ast.ExpressionStatement (ast.IntegerLiteral 7)]) 0%nat
     {| envs := [object.mkEnviroment ∅ None]; next := 9%nat; printed := [] |}
   = Ok (object.ReturnValue 10%nat (object.Integer 9%nat 1))
        {| envs := [object.mkEnviroment {["x" := object.Integer 9%nat 1]} None];
           next := 11%nat; printed := [] |}
   /\ evalProgram (Eval 3)
        {| ast.Statements :=
             [ast.LetStatement (ast.mkIdentifier "x") (ast.IntegerLiteral 1)]
             ++ ast.ReturnStatement (ast.Ident (ast.mkIdentifier "x"))
             :: [ast.ExpressionStatement (ast.IntegerLiteral 7)] |} 0%nat
        {| envs := [object.mkEnviroment ∅ None]; next := 9%nat; printed := [] |}
      = Ok (object.Integer 9%nat 1)
           {| envs := [object.mkEnviroment {["x" := object.Integer 9%nat 1]} None];
              next := 11%nat; printed := [] |})
  /\ applyFunction (Eval 4)
       (object.Function 9%nat []
          (ast.mkBlock [ast.ReturnStatement (ast.IntegerLiteral 5)]) 0%nat) []
       {| envs := [object.mkEnviroment ∅ None]; next := 10%nat; printed := [] |}
     = Ok (object.Integer 10%nat 5)
          {| envs := [object.mkEnviroment ∅ None; object.mkEnviroment ∅ (Some 0%nat)];
             next := 12%nat; printed := [] |}
  /\ Eval 6 (ast.NodeStatement
               (ast.ExpressionStatement
                  (ast.IfExpression (ast.Boolean true)
                     (ast.mkBlock [ast.ReturnStatement (ast.IntegerLiteral 10)]) None)))
          0%nat {| envs := [object.mkEnviroment ∅ None]; next := 9%nat; printed := [] |}
     = Ok (object.ReturnValue 10%nat (object.Integer 9%nat 10))
          {| envs := [object.mkEnviroment ∅ None]; next := 11%nat; printed := [] |}.
Proof.
  destruct C1_return_value_unwrapped_in_two_places
    as (Hseq & Happ & Hstmt & Hif & _).
  split; [|split].
  - destruct (Hseq 3%nat
                [ast.LetStatement (ast.mkIdentifier "x") (ast.IntegerLiteral 1)]
                (ast.ReturnStatement (ast.Ident (ast.mkIdentifier "x")))
                [ast.ExpressionStatement (ast.IntegerLiteral 7)] 0%nat
                {| envs := [object.mkEnviroment ∅ None]; next := 9%nat; printed := [] |}
                object.Nil
                {| envs := [object.mkEnviroment {["x" := object.Integer 9%nat 1]} None];
                   next := 10%nat; printed := [] |}
                10%nat (object.Integer 9%nat 1)
                {| envs := [object.mkEnviroment {["x" := object.Integer 9%nat 1]} None];
                   next := 11%nat; printed := [] |})
      as (HB & _ & HP & _).
    + vm_compute. reflexivity.
    + vm_compute. reflexivity.
    + vm_compute. reflexivity.
    + split; assumption.
  - apply (Happ 4%nat 9%nat []
             (ast.mkBlock [ast.ReturnStatement (ast.IntegerLiteral 5)]) 0%nat []
             {| envs := [object.mkEnviroment ∅ None]; next := 10%nat; printed := [] |}
             11%nat).
    vm_compute. reflexivity.
  - rewrite Hstmt.
    rewrite (Hif 4%nat (ast.Boolean true)
               (ast.mkBlock [ast.ReturnStatement (ast.IntegerLiteral 10)]) None 0%nat
               {| envs := [object.mkEnviroment ∅ None]; next := 9%nat; printed := [] |}
               TRUE
               {| envs := [object.mkEnviroment ∅ None]; next := 9%nat; printed := [] |}
               ltac:(vm_compute; reflexivity) ltac:(discriminate) ltac:(reflexivity)).
    vm_compute. reflexivity.
Defined.
